(** * Customer-triage dashboard: the ticket pipeline of [Dashboard]

    A shallow embedding of the triage pipeline of the dashboard component
    (ticket store, Summarizer, Sentiment Classifier, Router, Orchestrator,
    Bulk Runner and Ingestion Entry Point) together with the properties the
    specification states about them. *)

From Stdlib Require Import List ZArith NArith Bool Lia String Ascii Sorted.
Import ListNotations.

(** ** JavaScript strings

    A JavaScript string is a sequence of UTF-16 code units; [length],
    [slice], [trim] and the regular expressions of the component all work on
    code units. *)

Module JS.

Definition codeunit := N.
Definition jsstring := list codeunit.

(** A string literal of the source (all of them are ASCII). *)
Definition lit (s : string) : jsstring :=
  List.map N_of_ascii (list_ascii_of_string s).

(** The class [\s] of a regular expression, which is also the set of code
    units [String.prototype.trim] removes: WhiteSpace and LineTerminator. *)
Definition isWhiteSpace (c : codeunit) : bool :=
  ((9 <=? c) && (c <=? 13)       (* TAB LF VT FF CR *)
   || (c =? 32)                  (* SPACE *)
   || (c =? 160)                 (* NO-BREAK SPACE *)
   || (c =? 5760)                (* U+1680 *)
   || ((8192 <=? c) && (c <=? 8202))  (* U+2000 .. U+200A *)
   || (c =? 8232) || (c =? 8233) (* U+2028 U+2029 *)
   || (c =? 8239)                (* U+202F *)
   || (c =? 8287)                (* U+205F *)
   || (c =? 12288)               (* U+3000 *)
   || (c =? 65279))%N.           (* U+FEFF *)

Definition SP : codeunit := 32%N.

(** [s.replace(/\s+/g, " ")]: every maximal run of white space becomes one
    SPACE.  [inRun] tells that the previous code unit was white space, i.e.
    that the current match of [\s+] is still being extended. *)
Fixpoint replaceSpaceRuns (inRun : bool) (s : jsstring) : jsstring :=
  match s with
  | [] => []
  | c :: r =>
      if isWhiteSpace c
      then if inRun then replaceSpaceRuns true r
           else SP :: replaceSpaceRuns true r
      else c :: replaceSpaceRuns false r
  end.

Fixpoint trimStart (s : jsstring) : jsstring :=
  match s with
  | [] => []
  | c :: r => if isWhiteSpace c then trimStart r else s
  end.

Fixpoint trimEnd (s : jsstring) : jsstring :=
  match s with
  | [] => []
  | c :: r =>
      match trimEnd r with
      | [] => if isWhiteSpace c then [] else [c]
      | r' => c :: r'
      end
  end.

(** [s.trim()] *)
Definition trim (s : jsstring) : jsstring := trimEnd (trimStart s).

(** [s.slice(0, n)] for [0 <= n] *)
Definition slice0 (n : nat) (s : jsstring) : jsstring := firstn n s.

Fixpoint startsWith (p s : jsstring) : bool :=
  match p, s with
  | [], _ => true
  | _ :: _, [] => false
  | a :: p', b :: s' => (a =? b)%N && startsWith p' s'
  end.

(** [s.includes(p)]: [p] occurs in [s] as a substring. *)
Fixpoint includes (p s : jsstring) : bool :=
  startsWith p s ||
  match s with
  | [] => false
  | _ :: r => includes p r
  end.

(** [/(p1|p2|...)/.test(s)] for literal alternatives: the unanchored
    expression matches as soon as one alternative occurs somewhere in [s]. *)
Definition test (alternatives : list jsstring) (s : jsstring) : bool :=
  existsb (fun p => includes p s) alternatives.

(** [String.prototype.toLowerCase] on a string of ASCII code units. *)
Definition lowerAscii (c : codeunit) : codeunit :=
  if ((65 <=? c) && (c <=? 90))%N then (c + 32)%N else c.

Definition toLowerCaseAscii (s : jsstring) : jsstring := List.map lowerAscii s.

(** Truthiness of an optional string property: [undefined] and the empty
    string are falsy. *)
Definition truthy (o : option jsstring) : bool :=
  match o with
  | Some (_ :: _) => true
  | _ => false
  end.

End JS.

Import JS.

(** ** The Summarizer *)

Definition ellipsis : jsstring := Eval cbv in lit "...".

(** [const s = text.replace(/\s+/g, " ").trim()] *)
Definition normalize (text : jsstring) : jsstring :=
  trim (replaceSpaceRuns false text).

Definition summarize (text : jsstring) : jsstring :=
  let s := normalize text in
  if 120 <? List.length s then slice0 120 s ++ ellipsis
  else s.

(** *** The Summarizer as the specification words it

    The text is cut into its words (the maximal runs of code units that are
    not white space) and the words are joined by single spaces. *)

Fixpoint fields (s : jsstring) : list jsstring :=
  match s with
  | [] => [[]]
  | c :: r =>
      if isWhiteSpace c then [] :: fields r
      else match fields r with
           | w :: ws => (c :: w) :: ws
           | [] => [[c]]
           end
  end.

Definition nonEmpty (w : jsstring) : bool :=
  match w with [] => false | _ :: _ => true end.

Definition words (s : jsstring) : list jsstring := filter nonEmpty (fields s).

Fixpoint unwords (ws : list jsstring) : jsstring :=
  match ws with
  | [] => []
  | w :: rest =>
      match rest with
      | [] => w
      | _ :: _ => w ++ SP :: unwords rest
      end
  end.

Definition normalize_spec (text : jsstring) : jsstring := unwords (words text).

Definition summarize_spec (text : jsstring) : jsstring :=
  let s := normalize_spec text in
  if 120 <? List.length s then firstn 120 s ++ ellipsis else s.

(** What is left of [fields s] when the empty fields after the first one
    are dropped; the first field is kept to remember a leading space. *)
Definition headed (s : jsstring) : jsstring :=
  match fields s with
  | w :: ws => unwords (w :: filter nonEmpty ws)
  | [] => []
  end.

(** A string is in normal form when its only white space is single SPACEs
    standing between two other code units.  [afterWord] tells that the
    previous code unit exists and is not white space. *)
Fixpoint normalFrom (afterWord : bool) (s : jsstring) : bool :=
  match s with
  | [] => true
  | c :: r =>
      if isWhiteSpace c
      then afterWord && (c =? SP)%N && nonEmpty r && normalFrom false r
      else normalFrom true r
  end.

Definition normal (s : jsstring) : bool := normalFrom false s.

(** ** Data model *)

Inductive Stage := uploaded | summarized | sentiment | routed.

(** Position of a marker in the linear state machine
    [uploaded -> summarized -> sentiment -> routed]. *)
Definition stageRank (s : Stage) : nat :=
  match s with
  | uploaded => 0
  | summarized => 1
  | sentiment => 2
  | routed => 3
  end.

Module Ticket.
Record t := mk {
  id : Z;
  text : jsstring;
  stage : Stage;
  summary : option jsstring;      (* summary?: string *)
  sentiment : option jsstring;    (* sentiment?: string *)
  urgency : option jsstring;      (* urgency?: string *)
  action : option jsstring        (* action?: string *)
}.
End Ticket.
Abbreviation Ticket := Ticket.t.

(** [Partial<Ticket>]: [None] is a key the object literal does not have.  For
    the optional properties of a ticket a key that is present carries a value
    of the property's type, [undefined] ([None]) included. *)
Module Patch.
Record t := mk {
  id : option Z;
  text : option jsstring;
  stage : option Stage;
  summary : option (option jsstring);
  sentiment : option (option jsstring);
  urgency : option (option jsstring);
  action : option (option jsstring)
}.
Definition empty : t := mk None None None None None None None.
End Patch.
Abbreviation Patch := Patch.t.

(** The object literals the Orchestrator patches with. *)
Definition patch_stage (s : Stage) : Patch :=
  Patch.mk None None (Some s) None None None None.
Definition patch_summary (summary : jsstring) : Patch :=
  Patch.mk None None None (Some (Some summary)) None None None.
Definition patch_sentiment (sentiment urgency : jsstring) : Patch :=
  Patch.mk None None None None (Some (Some sentiment)) (Some (Some urgency)) None.
Definition patch_action (action : jsstring) : Patch :=
  Patch.mk None None None None None None (Some (Some action)).

Definition given {A} (o : option A) (old : A) : A :=
  match o with
  | Some v => v
  | None => old
  end.

(** [{ ...t, ...patch }] *)
Definition merge (t : Ticket) (patch : Patch) : Ticket :=
  Ticket.mk
    (given (Patch.id patch) (Ticket.id t))
    (given (Patch.text patch) (Ticket.text t))
    (given (Patch.stage patch) (Ticket.stage t))
    (given (Patch.summary patch) (Ticket.summary t))
    (given (Patch.sentiment patch) (Ticket.sentiment t))
    (given (Patch.urgency patch) (Ticket.urgency t))
    (given (Patch.action patch) (Ticket.action t)).

(** ** Ticket store

    [setTickets] is always called with a functional updater; React applies
    the queued updaters in the order in which they were issued.  The store is
    therefore a value of type [list Ticket] to which the updaters are applied
    in issue order, while [tickets] (an argument of the functions below that
    read it) is the value the rendering closure captured. *)

(** [prev.map((t) => (t.id === id ? { ...t, ...patch } : t))] *)
Definition updateTicket (id : Z) (patch : Patch) (prev : list Ticket)
  : list Ticket :=
  List.map (fun t => if (Ticket.id t =? id)%Z then merge t patch else t) prev.

(** [tickets.find((t) => t.id === id)] *)
Definition findTicket (id : Z) (tickets : list Ticket) : option Ticket :=
  List.find (fun t => (Ticket.id t =? id)%Z) tickets.

(** ** Router *)

Definition critical : jsstring := Eval cbv in lit "critical".
Definition high : jsstring := Eval cbv in lit "high".
Definition medium : jsstring := Eval cbv in lit "medium".
Definition low : jsstring := Eval cbv in lit "low".
Definition angry : jsstring := Eval cbv in lit "angry".
Definition frustrated : jsstring := Eval cbv in lit "frustrated".
Definition negative : jsstring := Eval cbv in lit "negative".
Definition neutral : jsstring := Eval cbv in lit "neutral".
Definition escalate_to_human : jsstring := Eval cbv in lit "escalate_to_human".
Definition normal_queue : jsstring := Eval cbv in lit "normal_queue".

Fixpoint strEq (a b : jsstring) : bool :=
  match a, b with
  | [], [] => true
  | x :: a', y :: b' => (x =? y)%N && strEq a' b'
  | _, _ => false
  end.

(** [v === "literal"] for an optional string [v] *)
Definition isLit (v : option jsstring) (literal : jsstring) : bool :=
  match v with
  | Some s => strEq s literal
  | None => false
  end.

Definition routeDecision (urgency sentiment : option jsstring) : jsstring :=
  if isLit urgency critical || isLit urgency high || isLit sentiment angry
  then escalate_to_human
  else normal_queue.

(** ** Sentiment Classifier *)

Module Sent.
Record t := mk { sentiment : jsstring; urgency : jsstring }.
End Sent.

Definition negativeWords : list jsstring := Eval cbv in
  List.map lit ["can't"; "cannot"; "not"; "fail"; "error"; "unable"; "broken";
                "refund"; "angry"; "threaten"]%string.
Definition threatPhrases : list jsstring := Eval cbv in
  List.map lit ["threaten"; "move to another provider"; "i'll move";
                "i will move"]%string.
Definition inabilityWords : list jsstring := Eval cbv in
  List.map lit ["can't"; "cannot"; "unable"; "fail"; "error"]%string.
Definition gratitudeWords : list jsstring := Eval cbv in
  List.map lit ["thanks"; "thank you"; "good"; "safe"; "arrived"]%string.

(** ** Effects

    What a run does to the outside: the updaters it hands to [setTickets] and
    the stage functions it awaits.  A task threads the store and appends to
    the trace, so the trace lists the effects in the order the code issues
    them. *)

Inductive Event :=
| Patched (id : Z) (patch : Patch)     (* updateTicket(id, patch) *)
| Inserted (newTicket : Ticket)        (* setTickets((prev) => [newTicket, ...prev]) *)
| Summarizing (text : jsstring)        (* summarize(text) *)
| Analyzing (summary : jsstring)       (* analyzeSentiment(summary) *)
| Routing (urgency sentiment : option jsstring). (* routeDecision({...}) *)

Definition applyEvent (e : Event) (prev : list Ticket) : list Ticket :=
  match e with
  | Patched id patch => updateTicket id patch prev
  | Inserted newTicket => newTicket :: prev
  | _ => prev
  end.

Definition applyEvents (es : list Event) (store : list Ticket) : list Ticket :=
  fold_left (fun prev e => applyEvent e prev) es store.

Record World := mkWorld { store : list Ticket; trace : list Event }.

Definition Task (A : Type) : Type := World -> A * World.

Definition ret {A} (a : A) : Task A := fun w => (a, w).

Definition bind {A B} (m : Task A) (k : A -> Task B) : Task B :=
  fun w => let (a, w') := m w in k a w'.

Notation "x <- m ;; k" := (bind m (fun x => k))
  (at level 61, m at next level, right associativity).
Notation "m ;; k" := (bind m (fun _ => k))
  (at level 61, right associativity).

Definition setTickets (e : Event) : Task unit :=
  fun w => (tt, mkWorld (applyEvent e (store w)) (trace w ++ [e])).

(** [await f(args)]: the call is recorded and its value handed on. *)
Definition await {A} (e : Event) (value : A) : Task A :=
  fun w => (value, mkWorld (store w) (trace w ++ [e])).

Definition run {A} (m : Task A) (s : list Ticket) : World :=
  snd (m (mkWorld s [])).

(** One schedule of two tasks whose effects interleave: [zs] takes the
    events of [xs] and of [ys], each in its own order. *)
Inductive Interleaving {A : Type} : list A -> list A -> list A -> Prop :=
| il_done : Interleaving [] [] []
| il_left x xs ys zs :
    Interleaving xs ys zs -> Interleaving (x :: xs) ys (x :: zs)
| il_right y xs ys zs :
    Interleaving xs ys zs -> Interleaving xs (y :: ys) (y :: zs).

(** An effect of some other pipeline run, add or stage call: it patches no
    ticket of [id] and renumbers none. *)
Definition foreignTo (id : Z) (e : Event) : bool :=
  match e with
  | Patched id' patch =>
      negb (id' =? id)%Z &&
      match Patch.id patch with Some _ => false | None => true end
  | Inserted newTicket => negb (Ticket.id newTicket =? id)%Z
  | _ => true
  end.

(** ** Ingestion Entry Point: id allocation *)

(** An id is a JavaScript number, an IEEE 754 double.  The model keeps the
    integer-valued ids, each as the integer it denotes; [===] and [Math.max]
    are exact on them, [+] is not. *)
Definition two53 : Z := 9007199254740992.

(** [m + 1] in double arithmetic, for an integer-valued double [m].  The sum
    is exact as long as it lies within [-2^53 .. 2^53].  For [m] in the next
    binade, where the doubles are the even integers, the sum is half way
    between [m] and [m + 2] and goes to the one with the even significand.
    Beyond that the sum rounds back to [m]. *)
Definition plusOne (m : Z) : Z :=
  (if (- two53 <=? m) && (m <? two53) then m + 1
   else if ((two53 <=? m) && (m <? 2 * two53))
           || ((- (2 * two53) <=? m) && (m <? - two53))
        then if Z.even (m / 2) then m else m + 2
        else m)%Z.

(** [tickets.length ? Math.max(...tickets.map((t) => t.id)) + 1 : 1].  The
    spread passes one argument per ticket.  [argumentLimit] is the largest
    number of arguments the engine accepts in a call at this point (it
    depends on the engine and on the stack left); beyond it the call throws
    a RangeError, which is [None] here. *)
Definition nextId (argumentLimit : nat) (tickets : list Ticket) : option Z :=
  match List.map Ticket.id tickets with
  | [] => Some 1%Z
  | x :: rest =>
      if argumentLimit <? List.length tickets then None
      else Some (plusOne (fold_left Z.max rest x))
  end.

(** ** Bulk Runner *)

(** [!t.summary || !t.action] *)
Definition needsRun (t : Ticket) : bool :=
  negb (truthy (Ticket.summary t)) || negb (truthy (Ticket.action t)).

(** The calls [runPipeline(t.id)] that [tickets.forEach] makes, in order. *)
Definition runAll (tickets : list Ticket) : list Z :=
  List.map Ticket.id (filter needsRun tickets).

Section Pipeline.

(** [String.prototype.toLowerCase], the Unicode lower-casing of the host.
    Nothing is assumed about it; [toLowerCaseAscii] is what it does on ASCII
    strings. *)
Variable toLowerCase : jsstring -> jsstring.

Definition analyzeSentiment (summary : jsstring) : Sent.t :=
  let lower := toLowerCase summary in
  if test negativeWords lower then
    if test threatPhrases lower then Sent.mk angry critical
    else if test inabilityWords lower then Sent.mk frustrated high
    else Sent.mk negative high
  else if test gratitudeWords lower then Sent.mk neutral low
  else Sent.mk neutral medium.

(** *** Orchestrator *)

Definition callUpdateTicket (id : Z) (patch : Patch) : Task unit :=
  setTickets (Patched id patch).

Definition callSummarize (text : jsstring) : Task jsstring :=
  await (Summarizing text) (summarize text).

Definition callAnalyzeSentiment (summary : jsstring) : Task Sent.t :=
  await (Analyzing summary) (analyzeSentiment summary).

Definition callRouteDecision (urgency sentiment : option jsstring)
  : Task jsstring :=
  await (Routing urgency sentiment) (routeDecision urgency sentiment).

(** [ticketOverride || tickets.find((t) => t.id === id)] *)
Definition resolve (tickets : list Ticket) (id : Z)
  (ticketOverride : option Ticket) : option Ticket :=
  match ticketOverride with
  | Some t => Some t
  | None => findTicket id tickets
  end.

Definition runPipeline (tickets : list Ticket) (id : Z)
  (ticketOverride : option Ticket) : Task unit :=
  match resolve tickets id ticketOverride with
  | None => ret tt
  | Some ticket =>
      callUpdateTicket id (patch_stage summarized) ;;
      summary <- callSummarize (Ticket.text ticket) ;;
      callUpdateTicket id (patch_summary summary) ;;
      callUpdateTicket id (patch_stage sentiment) ;;
      sent <- callAnalyzeSentiment summary ;;
      callUpdateTicket id
        (patch_sentiment (Sent.sentiment sent) (Sent.urgency sent)) ;;
      callUpdateTicket id (patch_stage routed) ;;
      action <- callRouteDecision (Some (Sent.urgency sent))
                                  (Some (Sent.sentiment sent)) ;;
      callUpdateTicket id (patch_action action)
  end.

(** *** Ingestion Entry Point

    The value of the task is the call [runPipeline(id, newTicket)] that
    [setTimeout] defers, or [None] when the computation of the id threw:
    the exception leaves [addTicket] before [setTickets] and [setTimeout]
    are reached. *)
Definition addTicket (argumentLimit : nat) (tickets : list Ticket)
  (text : jsstring) : Task (option (Z * Ticket)) :=
  match nextId argumentLimit tickets with
  | None => ret None
  | Some id =>
      let newTicket := Ticket.mk id text uploaded None None None None in
      setTickets (Inserted newTicket) ;;
      ret (Some (id, newTicket))
  end.

(** [addTicket] followed by its deferred run, nothing in between. *)
Definition addTicketThenRun (argumentLimit : nat) (tickets : list Ticket)
  (text : jsstring) : Task unit :=
  call <- addTicket argumentLimit tickets text ;;
  match call with
  | Some (id, newTicket) => runPipeline tickets id (Some newTicket)
  | None => ret tt
  end.

(** The effects of one run on a ticket of text [text], as the specification
    lists them. *)
Definition pipelineEvents (id : Z) (text : jsstring) : list Event :=
  let summary := summarize text in
  let sent := analyzeSentiment summary in
  let u := Some (Sent.urgency sent) in
  let s := Some (Sent.sentiment sent) in
  [ Patched id (patch_stage summarized);
    Summarizing text;
    Patched id (patch_summary summary);
    Patched id (patch_stage sentiment);
    Analyzing summary;
    Patched id (patch_sentiment (Sent.sentiment sent) (Sent.urgency sent));
    Patched id (patch_stage routed);
    Routing u s;
    Patched id (patch_action (routeDecision u s)) ].

(** The ticket [t] once a run that resolved to a ticket of text [text] is
    over. *)
Definition routedTicket (text : jsstring) (t : Ticket) : Ticket :=
  let summary := summarize text in
  let sent := analyzeSentiment summary in
  Ticket.mk (Ticket.id t) (Ticket.text t) routed (Some summary)
    (Some (Sent.sentiment sent)) (Some (Sent.urgency sent))
    (Some (routeDecision (Some (Sent.urgency sent))
                         (Some (Sent.sentiment sent)))).

End Pipeline.

(** ** Seed data ([initialTickets]) *)

Definition initialTickets : list Ticket :=
  [ Ticket.mk 1
      (lit "I tried to pay my bill online but your site kept giving error 500, and the chatbot was no help at all.")
      uploaded None None None None;
    Ticket.mk 2
      (lit "Just wanted to let you know the delivery was late but it arrived safely. Thanks.")
      uploaded None None None None;
    Ticket.mk 3
      (lit "Reset my password 3 times, still can't get access. Please fix this ASAP or I'll move to another provider!")
      uploaded None None None None ].


(** ** Vocabulary of the properties *)

(** [t'] is [t] with exactly the fields of [patch] merged in. *)
Definition mergedField {A} (given : option A) (old new : A) : Prop :=
  match given with
  | Some v => new = v
  | None => new = old
  end.

Definition Merged (t : Ticket) (patch : Patch) (t' : Ticket) : Prop :=
  mergedField (Patch.id patch) (Ticket.id t) (Ticket.id t') /\
  mergedField (Patch.text patch) (Ticket.text t) (Ticket.text t') /\
  mergedField (Patch.stage patch) (Ticket.stage t) (Ticket.stage t') /\
  mergedField (Patch.summary patch) (Ticket.summary t) (Ticket.summary t') /\
  mergedField (Patch.sentiment patch) (Ticket.sentiment t) (Ticket.sentiment t') /\
  mergedField (Patch.urgency patch) (Ticket.urgency t) (Ticket.urgency t') /\
  mergedField (Patch.action patch) (Ticket.action t) (Ticket.action t').

(** The tickets of the store that [updateTicket id] addresses. *)
Definition ticketsOf (id : Z) (store : list Ticket) : list Ticket :=
  filter (fun t => (Ticket.id t =? id)%Z) store.

(** What one event does to one ticket of the store. *)
Definition stepTicket (e : Event) (t : Ticket) : Ticket :=
  match e with
  | Patched id patch => if (Ticket.id t =? id)%Z then merge t patch else t
  | _ => t
  end.

(** The states a ticket goes through, one after each event. *)
Fixpoint history (es : list Event) (t : Ticket) : list Ticket :=
  match es with
  | [] => []
  | e :: rest => stepTicket e t :: history rest (stepTicket e t)
  end.

Fixpoint nondecreasing (l : list nat) : bool :=
  match l with
  | [] => true
  | a :: rest =>
      match rest with
      | [] => true
      | b :: _ => (a <=? b) && nondecreasing rest
      end
  end.

(** A text without any word: empty or white space only. *)
Definition blank (text : jsstring) : bool := forallb isWhiteSpace text.

(** An effect of the run for [id] itself: a patch of [id] that leaves the
    id alone, or a stage call. *)
Definition ownEvent (id : Z) (e : Event) : bool :=
  match e with
  | Patched id' patch =>
      (id' =? id)%Z &&
      match Patch.id patch with Some _ => false | None => true end
  | Inserted _ => false
  | _ => true
  end.

Ltac step_ticket :=
  cbn [history stepTicket Ticket.id merge given patch_stage patch_summary
       patch_sentiment patch_action Patch.id Patch.text Patch.stage
       Patch.summary Patch.sentiment Patch.urgency Patch.action
       Ticket.text Ticket.stage Ticket.summary Ticket.sentiment
       Ticket.urgency Ticket.action List.map last].

(** A sequence of [add(text)] calls each made by a render that has seen the
    store as the previous call left it. *)
Fixpoint addEachRendered (argumentLimit : nat) (texts : list jsstring)
  (st : list Ticket) : list Ticket :=
  match texts with
  | [] => st
  | text :: rest =>
      addEachRendered argumentLimit rest
        (store (run (addTicket argumentLimit st text) st))
  end.

(** A sequence of [add(text)] calls all made through the [addTicket] of one
    render, which captured [tickets]. *)
Fixpoint addEachSameRender (argumentLimit : nat) (tickets : list Ticket)
  (texts : list jsstring) (st : list Ticket) : list Ticket :=
  match texts with
  | [] => st
  | text :: rest =>
      addEachSameRender argumentLimit tickets rest
        (store (run (addTicket argumentLimit tickets text) st))
  end.

(** The store has room for [n] more adds: no spread will exceed the
    argument limit and no id computed on the way will leave the range in
    which [+ 1] is exact. *)
Definition roomFor (argumentLimit n : nat) (st : list Ticket) : Prop :=
  List.length st + n <= argumentLimit /\
  (Z.of_nat n < two53)%Z /\
  forall t, In t st ->
    (- two53 <= Ticket.id t)%Z /\ (Ticket.id t + Z.of_nat n <= two53)%Z.

(** The ticket of the seed data found under [id] after its run. *)
Definition seedRun (id : Z) : option Ticket :=
  findTicket id
    (store (run (runPipeline toLowerCaseAscii initialTickets id None)
                initialTickets)).

(** A word: no white space in it. *)
Definition wordLike (w : jsstring) : bool :=
  forallb (fun c => negb (isWhiteSpace c)) w.

(** [{ ...p1, ...p2 }] for two patches: the keys of [p2] win. *)
Definition later {A} (o1 o2 : option A) : option A :=
  match o2 with
  | Some v => Some v
  | None => o1
  end.

Definition overlay (p1 p2 : Patch) : Patch :=
  Patch.mk
    (later (Patch.id p1) (Patch.id p2))
    (later (Patch.text p1) (Patch.text p2))
    (later (Patch.stage p1) (Patch.stage p2))
    (later (Patch.summary p1) (Patch.summary p2))
    (later (Patch.sentiment p1) (Patch.sentiment p2))
    (later (Patch.urgency p1) (Patch.urgency p2))
    (later (Patch.action p1) (Patch.action p2)).

(** The ticket [t] after the events [es], one after the other. *)
Definition after (es : list Event) (t : Ticket) : Ticket :=
  fold_left (fun t e => stepTicket e t) es t.

(** The event is a patch addressed to [id]. *)
Definition addresses (id : Z) (e : Event) : bool :=
  match e with
  | Patched id' _ => (id' =? id)%Z
  | _ => false
  end.

(** The event is no insertion and no patch that writes the [id] key. *)
Definition keepsIds (e : Event) : bool :=
  match e with
  | Patched _ patch => match Patch.id patch with Some _ => false | None => true end
  | Inserted _ => false
  | _ => true
  end.

(** One schedule of several tasks: the events of every task in its own
    order, the tasks interleaved in any way. *)
Inductive Shuffle {A : Type} : list (list A) -> list A -> Prop :=
| sh_none : Shuffle [] []
| sh_more task tasks rest schedule :
    Shuffle tasks rest -> Interleaving task rest schedule ->
    Shuffle (task :: tasks) schedule.

(** The store after each event of [es], starting from [st]. *)
Fixpoint storesAlong (es : list Event) (st : list Ticket)
  : list (list Ticket) :=
  match es with
  | [] => []
  | e :: rest => applyEvent e st :: storesAlong rest (applyEvent e st)
  end.

(** The ranks of the stage markers a sequence of lookups shows. *)
Definition markerRanks (found : list (option Ticket)) : list nat :=
  flat_map (fun o => match o with
                     | Some t => [stageRank (Ticket.stage t)]
                     | None => []
                     end) found.

(** * Properties *)

(** ** Summarizer *)

Section SummarizerFacts.

Lemma SP_isWhiteSpace : isWhiteSpace SP = true.
Proof. reflexivity. Qed.

Lemma trimStart_replaceSpaceRuns (s : jsstring) (inRun : bool) :
  trimStart (replaceSpaceRuns inRun s) = replaceSpaceRuns true s.
Proof.
  revert inRun; induction s as [|c r IH]; intros inRun; simpl; [reflexivity|].
  destruct (isWhiteSpace c) eqn:Hc.
  - destruct inRun; simpl; rewrite ?SP_isWhiteSpace; apply IH.
  - simpl. now rewrite Hc.
Qed.

Lemma trimEnd_cons_word (c : codeunit) (r : jsstring) :
  isWhiteSpace c = false -> trimEnd (c :: r) = c :: trimEnd r.
Proof.
  intros Hc; simpl. rewrite Hc. now destruct (trimEnd r).
Qed.

Lemma trimEnd_cons_space (r : jsstring) :
  trimEnd (SP :: r) = match trimEnd r with [] => [] | r' => SP :: r' end.
Proof. reflexivity. Qed.

Lemma unwords_cons_cons (c : codeunit) (w : jsstring) (ws : list jsstring) :
  unwords ((c :: w) :: ws) = c :: unwords (w :: ws).
Proof. now destruct ws. Qed.

Lemma words_first_nonEmpty (s : jsstring) (w : jsstring) (ws : list jsstring) :
  words s = w :: ws -> nonEmpty w = true.
Proof.
  unfold words; intros H.
  assert (In w (filter nonEmpty (fields s))) as Hin by (rewrite H; now left).
  now apply filter_In in Hin.
Qed.

Lemma trimEnd_replaceSpaceRuns (s : jsstring) :
  trimEnd (replaceSpaceRuns true s) = unwords (words s) /\
  trimEnd (replaceSpaceRuns false s) = headed s.
Proof.
  induction s as [|c r [IHt IHf]]; [now split|].
  unfold headed, words in *. cbn [fields replaceSpaceRuns].
  destruct (isWhiteSpace c) eqn:Hc.
  - cbn [filter nonEmpty]. split; [exact IHt|].
    rewrite trimEnd_cons_space, IHt.
    fold (words r).
    destruct (words r) as [|w ws] eqn:Hw; [reflexivity|].
    apply words_first_nonEmpty in Hw.
    destruct w as [|x w]; [discriminate|].
    change (unwords ([] :: (x :: w) :: ws))
      with (SP :: unwords ((x :: w) :: ws)).
    now rewrite !unwords_cons_cons.
  - rewrite (trimEnd_cons_word c _ Hc), IHf.
    destruct (fields r) as [|w ws].
    + now split.
    + cbn [filter nonEmpty]. rewrite unwords_cons_cons. now split.
Qed.

Lemma normalize_normalize_spec (text : jsstring) :
  normalize text = normalize_spec text.
Proof.
  unfold normalize, normalize_spec, trim.
  rewrite trimStart_replaceSpaceRuns.
  apply trimEnd_replaceSpaceRuns.
Qed.

Lemma normalFrom_trimEnd_replaceSpaceRuns (s : jsstring) (afterWord : bool) :
  normalFrom afterWord (trimEnd (replaceSpaceRuns (negb afterWord) s)) = true.
Proof.
  revert afterWord; induction s as [|c r IH]; intros afterWord; [reflexivity|].
  cbn [replaceSpaceRuns].
  destruct (isWhiteSpace c) eqn:Hc.
  - destruct afterWord; cbn [negb].
    + rewrite trimEnd_cons_space.
      specialize (IH false); cbn [negb] in IH.
      destruct (trimEnd (replaceSpaceRuns true r)) as [|x t]; [reflexivity|].
      cbn [normalFrom]. rewrite SP_isWhiteSpace. exact IH.
    + apply (IH false).
  - rewrite (trimEnd_cons_word c _ Hc). cbn [normalFrom]. rewrite Hc.
    apply (IH true).
Qed.

Lemma normal_normalize (text : jsstring) : normal (normalize text) = true.
Proof.
  unfold normal, normalize, trim. rewrite trimStart_replaceSpaceRuns.
  apply (normalFrom_trimEnd_replaceSpaceRuns text false).
Qed.

Lemma normalFrom_replaceSpaceRuns (s : jsstring) (afterWord : bool) :
  normalFrom afterWord s = true ->
  replaceSpaceRuns (negb afterWord) s = s.
Proof.
  revert afterWord; induction s as [|c r IH]; intros afterWord; [reflexivity|].
  cbn [normalFrom replaceSpaceRuns].
  destruct (isWhiteSpace c) eqn:Hc.
  - intros H. apply andb_prop in H as [H Hr]. apply andb_prop in H as [H _].
    apply andb_prop in H as [Ha Hsp]. subst afterWord. cbn [negb].
    apply N.eqb_eq in Hsp. subst c. f_equal. apply (IH false Hr).
  - intros H. f_equal. apply (IH true H).
Qed.

Lemma normalFrom_trimEnd (s : jsstring) (afterWord : bool) :
  normalFrom afterWord s = true -> trimEnd s = s.
Proof.
  revert afterWord; induction s as [|c r IH]; intros afterWord; [reflexivity|].
  cbn [normalFrom trimEnd].
  destruct (isWhiteSpace c) eqn:Hc.
  - intros H. apply andb_prop in H as [H Hr]. apply andb_prop in H as [_ Hne].
    rewrite (IH false Hr). destruct r; [discriminate|reflexivity].
  - intros H. rewrite (IH true H). now destruct r.
Qed.

Lemma normal_fixed (s : jsstring) : normal s = true -> normalize s = s.
Proof.
  unfold normal, normalize, trim; intros H.
  rewrite trimStart_replaceSpaceRuns.
  pose proof (normalFrom_replaceSpaceRuns s false H) as E.
  cbn [negb] in E. rewrite E.
  apply (normalFrom_trimEnd s false H).
Qed.

Lemma normalFrom_word (w : jsstring) (afterWord : bool) :
  forallb (fun c => negb (isWhiteSpace c)) w = true ->
  normalFrom afterWord w = true.
Proof.
  revert afterWord; induction w as [|c r IH]; intros afterWord; [reflexivity|].
  cbn [forallb normalFrom]. intros H. apply andb_prop in H as [Hc Hr].
  apply negb_true_iff in Hc. rewrite Hc. now apply IH.
Qed.

Lemma normalFrom_truncated (s w : jsstring) (n : nat) (afterWord : bool) :
  nonEmpty w = true ->
  forallb (fun c => negb (isWhiteSpace c)) w = true ->
  normalFrom afterWord s = true ->
  normalFrom afterWord (firstn n s ++ w) = true.
Proof.
  intros Hne Hw. revert n afterWord.
  induction s as [|c r IH]; intros n afterWord H.
  - rewrite firstn_nil. now apply normalFrom_word.
  - destruct n as [|n]; [now apply normalFrom_word|].
    cbn [firstn app normalFrom] in *.
    destruct (isWhiteSpace c).
    + apply andb_prop in H as [H Hr]. apply andb_prop in H as [H _].
      rewrite H, (IH n false Hr), andb_true_r.
      destruct (firstn n r); [exact Hne | reflexivity].
    + now apply IH.
Qed.

End SummarizerFacts.

(** C5. For every input text the Summarizer returns the words of the text
    joined by single spaces (every run of white space collapsed to one space,
    none left at either end) when that normal form has at most 120 code
    units, and otherwise its first 120 code units followed by the
    three-character ellipsis marker; the output never has more than 123 code
    units. *)
Theorem summarize_meets_spec (text : jsstring) :
  summarize text = summarize_spec text /\
  normal (normalize_spec text) = true /\
  List.length (summarize text) <= 123 /\
  summarize text =
    (if 120 <? List.length (normalize_spec text)
     then firstn 120 (normalize_spec text) ++ lit "..."
     else normalize_spec text).
Proof.
  assert (summarize text = summarize_spec text) as E.
  { unfold summarize, summarize_spec, slice0.
    now rewrite normalize_normalize_spec. }
  split; [exact E|]. split.
  { rewrite <- normalize_normalize_spec. apply normal_normalize. }
  split; [|exact E].
  rewrite E. unfold summarize_spec.
  destruct (120 <? List.length (normalize_spec text)) eqn:L.
  - apply Nat.ltb_lt in L. rewrite length_app, length_firstn.
    change (List.length ellipsis) with 3. lia.
  - apply Nat.ltb_ge in L. lia.
Qed.

(** C6. The Summarizer is idempotent: summarizing its own output gives that
    output back. *)
Theorem summarize_idempotent (text : jsstring) :
  summarize (summarize text) = summarize text.
Proof.
  pose proof (normal_normalize text) as Hn.
  assert (summarize text =
          if 120 <? List.length (normalize text)
          then firstn 120 (normalize text) ++ ellipsis
          else normalize text) as E by reflexivity.
  set (s := normalize text) in *.
  destruct (120 <? List.length s) eqn:L; rewrite E.
  - assert (normal (firstn 120 s ++ ellipsis) = true) as Hn'
      by (apply normalFrom_truncated; [reflexivity | reflexivity | exact Hn]).
    apply Nat.ltb_lt in L.
    assert (List.length (firstn 120 s) = 120) as Hl
      by (rewrite length_firstn; lia).
    assert ((120 <? List.length (firstn 120 s ++ ellipsis)) = true) as L'.
    { apply Nat.ltb_lt. rewrite length_app, Hl.
      change (List.length ellipsis) with 3. lia. }
    unfold summarize, slice0.
    rewrite (normal_fixed _ Hn'), L'. f_equal.
    rewrite firstn_app, Hl, Nat.sub_diag, firstn_O, app_nil_r.
    rewrite <- Hl at 1. apply firstn_all.
  - unfold summarize. rewrite (normal_fixed _ Hn). now rewrite L.
Qed.

(** ** Strings and patterns *)

Lemma strEq_eq (a b : jsstring) : strEq a b = true <-> a = b.
Proof.
  revert b; induction a as [|x a IH]; intros [|y b]; simpl;
    try (split; [discriminate | discriminate]); [tauto|].
  rewrite andb_true_iff, N.eqb_eq, IH.
  split; [intros [-> ->]; reflexivity | intros E; now inversion E].
Qed.

Lemma isLit_eq (v : option jsstring) (literal : jsstring) :
  isLit v literal = true <-> v = Some literal.
Proof.
  destruct v as [s|]; simpl; [|split; discriminate].
  rewrite strEq_eq. split; [now intros -> | now intros [= ->]].
Qed.

Lemma startsWith_app (p s : jsstring) :
  startsWith p s = true <-> exists rest, s = p ++ rest.
Proof.
  revert s; induction p as [|a p IH]; intros s; simpl.
  - split; [intros _; now exists s | reflexivity].
  - destruct s as [|b s].
    + split; [discriminate | intros [rest E]; discriminate].
    + rewrite andb_true_iff, N.eqb_eq, IH. split.
      * intros [-> [rest ->]]. now exists rest.
      * intros [rest E]. inversion E; subst. split; [reflexivity|now exists rest].
Qed.

(** [includes p s] holds exactly when [p] is a substring of [s]. *)
Lemma includes_substring (p s : jsstring) :
  includes p s = true <-> exists before after, s = before ++ p ++ after.
Proof.
  induction s as [|c s IH].
  - simpl. rewrite orb_false_r, startsWith_app. split.
    + intros [rest E]. now exists [], rest.
    + intros [before [after E]]. symmetry in E.
      apply app_eq_nil in E as [-> E]. now exists after.
  - cbn [includes]. rewrite orb_true_iff, startsWith_app, IH. split.
    + intros [[rest E] | [before [after E]]].
      * now exists [], rest.
      * exists (c :: before), after. now rewrite E.
    + intros [[|b before] [after E]].
      * left. now exists after.
      * right. inversion E; subst. now exists before, after.
Qed.

Lemma includes_trans (p q s : jsstring) :
  includes p q = true -> includes q s = true -> includes p s = true.
Proof.
  rewrite !includes_substring.
  intros [b1 [a1 ->]] [b2 [a2 ->]].
  exists (b2 ++ b1), (a1 ++ a2). now rewrite <- !app_assoc.
Qed.

Lemma test_In (alternatives : list jsstring) (s p : jsstring) :
  In p alternatives -> includes p s = true -> test alternatives s = true.
Proof.
  intros Hin Hp. apply existsb_exists. now exists p.
Qed.

(** ** Router *)

(** C7. The Router returns [escalate_to_human] exactly when the urgency is
    [critical] or [high] or the sentiment is [angry], and [normal_queue] for
    every other pair (absent values included). *)
Theorem routeDecision_spec (urgency sentiment : option jsstring) :
  (routeDecision urgency sentiment = escalate_to_human <->
   urgency = Some critical \/ urgency = Some high \/ sentiment = Some angry)
  /\
  (routeDecision urgency sentiment = normal_queue <->
   ~ (urgency = Some critical \/ urgency = Some high \/ sentiment = Some angry)).
Proof.
  unfold routeDecision.
  rewrite <- !isLit_eq.
  destruct (isLit urgency critical), (isLit urgency high),
    (isLit sentiment angry); cbn [orb];
    (split; split; intros H; try reflexivity; try discriminate H;
     intuition (try reflexivity; try discriminate)).
Qed.

(** ** Sentiment Classifier *)

Lemma threaten_passes_gate (lower : jsstring) :
  includes (lit "threaten") lower = true -> test negativeWords lower = true.
Proof.
  apply test_In. unfold negativeWords. cbn. tauto.
Qed.

Lemma another_passes_gate (lower : jsstring) :
  includes (lit "another") lower = true -> test negativeWords lower = true.
Proof.
  intros H. apply (test_In _ _ (lit "not")).
  - unfold negativeWords. cbn. tauto.
  - now apply (includes_trans _ (lit "another")).
Qed.

Lemma provider_passes_gate (lower : jsstring) :
  includes (lit "move to another provider") lower = true ->
  test negativeWords lower = true.
Proof.
  intros H. apply another_passes_gate.
  now apply (includes_trans _ (lit "move to another provider")).
Qed.

Section ClassifierFacts.

Variable toLowerCase : jsstring -> jsstring.

Lemma analyzeSentiment_threat (summary : jsstring) :
  test negativeWords (toLowerCase summary) = true ->
  test threatPhrases (toLowerCase summary) = true ->
  analyzeSentiment toLowerCase summary = Sent.mk angry critical.
Proof.
  intros Hn Ht. unfold analyzeSentiment. now rewrite Hn, Ht.
Qed.

(** In the negative rule group the urgency is [high] or [critical], so the
    Router escalates. *)
Lemma analyzeSentiment_gate (summary : jsstring) :
  test negativeWords (toLowerCase summary) = true ->
  let sent := analyzeSentiment toLowerCase summary in
  (sent = Sent.mk angry critical \/ sent = Sent.mk frustrated high \/
   sent = Sent.mk negative high) /\
  routeDecision (Some (Sent.urgency sent)) (Some (Sent.sentiment sent))
  = escalate_to_human.
Proof.
  intros Hn. unfold analyzeSentiment. rewrite Hn.
  destruct (test threatPhrases (toLowerCase summary));
    [|destruct (test inabilityWords (toLowerCase summary))];
    (split; [tauto | reflexivity]).
Qed.

(** C3 (amended). A summary whose lower-cased form contains a gratitude
    phrase and the threat phrase "threaten" or "move to another provider" is
    classified angry/critical; so is one that contains the threat phrase
    "i'll move" or "i will move" together with any keyword of the negative
    group, which gates the threat rule. *)
Theorem threat_precedes_gratitude (summary : jsstring) :
  let lower := toLowerCase summary in
  test gratitudeWords lower = true ->
  (includes (lit "threaten") lower = true \/
   includes (lit "move to another provider") lower = true \/
   ((includes (lit "i'll move") lower = true \/
     includes (lit "i will move") lower = true) /\
    test negativeWords lower = true)) ->
  analyzeSentiment toLowerCase summary = Sent.mk angry critical.
Proof.
  intros lower _ H. subst lower.
  assert (forall p, In p threatPhrases ->
                    includes p (toLowerCase summary) = true ->
                    test threatPhrases (toLowerCase summary) = true) as T
    by (intros p; apply test_In).
  destruct H as [H | [H | [[H | H] Hn]]].
  - apply analyzeSentiment_threat; [now apply threaten_passes_gate|].
    apply (T (lit "threaten")); [cbn; tauto | exact H].
  - apply analyzeSentiment_threat; [now apply provider_passes_gate|].
    apply (T (lit "move to another provider")); [cbn; tauto | exact H].
  - apply analyzeSentiment_threat; [exact Hn|].
    apply (T (lit "i'll move")); [cbn; tauto | exact H].
  - apply analyzeSentiment_threat; [exact Hn|].
    apply (T (lit "i will move")); [cbn; tauto | exact H].
Qed.

(** C10. The keyword tests are substring tests on the lower-cased summary:
    whenever it contains "another" it contains the keyword "not", the
    negative rule group is entered and the Router escalates. *)
Theorem another_forces_negative_group (summary : jsstring) :
  includes (lit "another") (toLowerCase summary) = true ->
  let sent := analyzeSentiment toLowerCase summary in
  includes (lit "not") (toLowerCase summary) = true /\
  test negativeWords (toLowerCase summary) = true /\
  (sent = Sent.mk angry critical \/ sent = Sent.mk frustrated high \/
   sent = Sent.mk negative high) /\
  routeDecision (Some (Sent.urgency sent)) (Some (Sent.sentiment sent))
  = escalate_to_human.
Proof.
  intros H sent.
  split; [now apply (includes_trans _ (lit "another"))|].
  split; [now apply another_passes_gate|].
  apply analyzeSentiment_gate. now apply another_passes_gate.
Qed.

End ClassifierFacts.

(** On an ASCII summary lower-casing is a code unit map, so a lower-case
    word of the summary is still there after it. *)
Lemma includes_map (f : codeunit -> codeunit) (p s : jsstring) :
  includes p s = true -> includes (List.map f p) (List.map f s) = true.
Proof.
  rewrite !includes_substring. intros [before [after ->]].
  exists (List.map f before), (List.map f after). now rewrite !map_app.
Qed.

Lemma another_in_ascii_summary (summary : jsstring) :
  includes (lit "another") summary = true ->
  test negativeWords (toLowerCaseAscii summary) = true.
Proof.
  intros H. apply (includes_map lowerAscii) in H.
  exact (another_passes_gate _ H).
Qed.

(** C3 as the specification states it fails: "I'll move, thanks" contains a
    threat phrase and a gratitude phrase, but none of the negative keywords
    that gate the threat rule, and is classified neutral/low. *)
Lemma threat_with_thanks_is_neutral :
  let summary := lit "I'll move, thanks" in
  test threatPhrases (toLowerCaseAscii summary) = true /\
  test gratitudeWords (toLowerCaseAscii summary) = true /\
  analyzeSentiment toLowerCaseAscii summary = Sent.mk neutral low /\
  analyzeSentiment toLowerCaseAscii summary <> Sent.mk angry critical.
Proof.
  cbv zeta. repeat split; try (vm_compute; reflexivity).
  vm_compute. discriminate.
Qed.

Lemma threat_precedes_gratitude_witness :
  let summary := lit "Thanks for nothing, I will move to another provider" in
  test gratitudeWords (toLowerCaseAscii summary) = true /\
  analyzeSentiment toLowerCaseAscii summary = Sent.mk angry critical.
Proof.
  cbv zeta. split; [vm_compute; reflexivity|].
  apply (threat_precedes_gratitude toLowerCaseAscii).
  - vm_compute; reflexivity.
  - right; left. vm_compute; reflexivity.
Defined.

Lemma another_forces_negative_group_witness :
  let summary := lit "Please send another invoice" in
  let sent := analyzeSentiment toLowerCaseAscii summary in
  includes (lit "another") (toLowerCaseAscii summary) = true /\
  (includes (lit "not") (toLowerCaseAscii summary) = true /\
   test negativeWords (toLowerCaseAscii summary) = true /\
   (sent = Sent.mk angry critical \/ sent = Sent.mk frustrated high \/
    sent = Sent.mk negative high) /\
   routeDecision (Some (Sent.urgency sent)) (Some (Sent.sentiment sent))
   = escalate_to_human) /\
  sent = Sent.mk negative high.
Proof.
  cbv zeta. split; [vm_compute; reflexivity|]. split.
  - apply (another_forces_negative_group toLowerCaseAscii).
    vm_compute; reflexivity.
  - vm_compute; reflexivity.
Defined.

(** ** Ticket store *)

Lemma merge_Merged (t : Ticket) (patch : Patch) : Merged t patch (merge t patch).
Proof.
  destruct patch as [i tx sg sm se ur ac].
  unfold Merged, merge; cbn [Patch.id Patch.text Patch.stage Patch.summary
    Patch.sentiment Patch.urgency Patch.action Ticket.id Ticket.text
    Ticket.stage Ticket.summary Ticket.sentiment Ticket.urgency Ticket.action].
  repeat split;
    match goal with |- mergedField ?o _ _ => destruct o; reflexivity end.
Qed.

Lemma updateTicket_no_match (prev : list Ticket) (id : Z) (patch : Patch) :
  (forall t, In t prev -> Ticket.id t <> id) -> updateTicket id patch prev = prev.
Proof.
  intros H. unfold updateTicket.
  rewrite <- (map_id prev) at 2. apply map_ext_in.
  intros t Hin. apply H in Hin. apply Z.eqb_neq in Hin. now rewrite Hin.
Qed.

(** C9. [updateTicket id patch] keeps the length and the order of the store;
    at every position a ticket whose id is [id] is replaced by itself with
    exactly the fields of [patch] merged in, and any other ticket stays as it
    is; when no ticket has that id the store is unchanged.  The function is
    total: there is no error case. *)
Theorem updateTicket_frame (prev : list Ticket) (id : Z) (patch : Patch) :
  List.length (updateTicket id patch prev) = List.length prev /\
  (forall i t, nth_error prev i = Some t ->
     exists t', nth_error (updateTicket id patch prev) i = Some t' /\
                (Ticket.id t = id -> Merged t patch t') /\
                (Ticket.id t <> id -> t' = t)) /\
  ((forall t, In t prev -> Ticket.id t <> id) ->
   updateTicket id patch prev = prev).
Proof.
  split; [apply length_map|]. split; [|apply updateTicket_no_match].
  intros i t Hi. unfold updateTicket.
  rewrite nth_error_map, Hi. cbn [option_map].
  eexists; split; [reflexivity|]. split.
  - intros E. apply Z.eqb_eq in E. rewrite E. apply merge_Merged.
  - intros E. apply Z.eqb_neq in E. now rewrite E.
Qed.

(** ** Orchestrator *)

Section OrchestratorFacts.

Variable toLowerCase : jsstring -> jsstring.

Lemma runPipeline_unresolved tickets id ticketOverride st :
  resolve tickets id ticketOverride = None ->
  run (runPipeline toLowerCase tickets id ticketOverride) st = mkWorld st [].
Proof.
  intros H. unfold run, runPipeline. now rewrite H.
Qed.

Lemma runPipeline_trace tickets id ticketOverride ticket st :
  resolve tickets id ticketOverride = Some ticket ->
  trace (run (runPipeline toLowerCase tickets id ticketOverride) st)
  = pipelineEvents toLowerCase id (Ticket.text ticket).
Proof.
  intros H. unfold run, runPipeline. rewrite H. reflexivity.
Qed.

Lemma runPipeline_store tickets id ticketOverride ticket st :
  resolve tickets id ticketOverride = Some ticket ->
  store (run (runPipeline toLowerCase tickets id ticketOverride) st)
  = applyEvents (pipelineEvents toLowerCase id (Ticket.text ticket)) st.
Proof.
  intros H. unfold run, runPipeline. rewrite H. reflexivity.
Qed.

Lemma applyEvents_app (es es' : list Event) (st : list Ticket) :
  applyEvents (es ++ es') st = applyEvents es' (applyEvents es st).
Proof. apply fold_left_app. Qed.

Lemma last_cons_default {A} (l : list A) (x d : A) :
  last (x :: l) d = last l x.
Proof.
  revert x d; induction l as [|y l IH]; intros x d; [reflexivity|].
  change (last (x :: y :: l) d) with (last (y :: l) d).
  now rewrite !IH.
Qed.

(** Without insertions the store evolves ticket by ticket. *)
Lemma applyEvents_pointwise (es : list Event) (st : list Ticket) :
  (forall t, ~ In (Inserted t) es) ->
  applyEvents es st = List.map (fun t => last (history es t) t) st.
Proof.
  revert st; induction es as [|e es IH]; intros st H.
  - cbn. now rewrite map_id.
  - assert (forall t, ~ In (Inserted t) es) as H'
      by (intros t Hin; apply (H t); now right).
    change (applyEvents (e :: es) st) with (applyEvents es (applyEvent e st)).
    rewrite (IH _ H').
    assert (applyEvent e st = List.map (stepTicket e) st) as E.
    { destruct e; cbn [applyEvent stepTicket]; try (now rewrite map_id).
      - reflexivity.
      - exfalso. apply (H newTicket). now left. }
    rewrite E, map_map. apply map_ext. intros t.
    cbn [history]. now rewrite last_cons_default.
Qed.

Lemma pipelineEvents_history (id : Z) (text : jsstring) (t : Ticket) :
  Ticket.id t = id ->
  List.map Ticket.stage (history (pipelineEvents toLowerCase id text) t)
  = [summarized; summarized; summarized;
     sentiment; sentiment; sentiment;
     routed; routed; routed] /\
  last (history (pipelineEvents toLowerCase id text) t) t
  = routedTicket toLowerCase text t.
Proof.
  intros <-. destruct t as [i tx sg sm se ur ac].
  unfold pipelineEvents, routedTicket. step_ticket.
  repeat (rewrite Z.eqb_refl; step_ticket).
  split; reflexivity.
Qed.

Lemma pipelineEvents_own (id : Z) (text : jsstring) :
  forallb (ownEvent id) (pipelineEvents toLowerCase id text) = true.
Proof.
  unfold pipelineEvents. cbn [forallb ownEvent patch_stage patch_summary
    patch_sentiment patch_action Patch.id].
  now rewrite Z.eqb_refl.
Qed.

Lemma ownEvent_not_inserted (id : Z) (es : list Event) :
  forallb (ownEvent id) es = true -> forall t, ~ In (Inserted t) es.
Proof.
  intros H t Hin. rewrite forallb_forall in H. apply H in Hin. discriminate.
Qed.

Lemma findTicket_ticketsOf (id : Z) (st : list Ticket) :
  findTicket id st = hd_error (ticketsOf id st).
Proof.
  unfold findTicket, ticketsOf.
  induction st as [|t st IH]; [reflexivity|].
  cbn [find filter]. now destruct (Ticket.id t =? id)%Z.
Qed.

Lemma ticketsOf_own (id : Z) (e : Event) (st : list Ticket) :
  ownEvent id e = true ->
  ticketsOf id (applyEvent e st) = List.map (stepTicket e) (ticketsOf id st).
Proof.
  intros H. destruct e as [id' patch| | | |]; cbn [applyEvent stepTicket];
    try (now rewrite map_id); try discriminate H.
  cbn [ownEvent] in H. apply andb_prop in H as [Hid Hp].
  apply Z.eqb_eq in Hid. subst id'.
  destruct patch as [[i|] tx sg sm se ur ac]; [discriminate Hp|].
  unfold ticketsOf, updateTicket.
  induction st as [|t st IH]; [reflexivity|].
  cbn [List.map filter].
  destruct (Ticket.id t =? id)%Z eqn:Et.
  - cbn [filter List.map stepTicket merge given Patch.id Ticket.id].
    rewrite Et. now rewrite IH.
  - cbn [filter]. rewrite Et. exact IH.
Qed.

Lemma ticketsOf_foreign (id : Z) (e : Event) (st : list Ticket) :
  foreignTo id e = true ->
  ticketsOf id (applyEvent e st) = ticketsOf id st.
Proof.
  intros H. destruct e as [id' patch|newTicket| | |]; cbn [applyEvent];
    try reflexivity.
  - cbn [foreignTo] in H. apply andb_prop in H as [Hid Hp].
    apply negb_true_iff in Hid.
    destruct patch as [[i|] tx sg sm se ur ac]; [discriminate Hp|].
    unfold ticketsOf, updateTicket.
    induction st as [|t st IH]; [reflexivity|].
    cbn [List.map filter].
    destruct (Ticket.id t =? id')%Z eqn:Et.
    + cbn [filter merge given Patch.id Ticket.id].
      apply Z.eqb_eq in Et. rewrite Et, Hid. exact IH.
    + cbn [filter]. now rewrite IH.
  - cbn [foreignTo] in H. apply negb_true_iff in H.
    unfold ticketsOf. cbn [filter]. now rewrite H.
Qed.

(** Whatever other runs, adds and calls interleave with a run for [id], the
    tickets of that id see the effects of the run and nothing else. *)
Lemma ticketsOf_interleaved (id : Z) (own others schedule : list Event) :
  Interleaving own others schedule ->
  forallb (ownEvent id) own = true ->
  forallb (foreignTo id) others = true ->
  forall st,
    ticketsOf id (applyEvents schedule st)
    = List.map (fun t => last (history own t) t) (ticketsOf id st).
Proof.
  induction 1 as [|x xs ys zs Hi IH|y xs ys zs Hi IH]; intros Hown Hfor st.
  - cbn. now rewrite map_id.
  - cbn [forallb] in Hown. apply andb_prop in Hown as [Hx Hxs].
    change (applyEvents (x :: zs) st) with (applyEvents zs (applyEvent x st)).
    rewrite (IH Hxs Hfor), (ticketsOf_own id x st Hx), map_map.
    apply map_ext. intros t. cbn [history]. now rewrite last_cons_default.
  - cbn [forallb] in Hfor. apply andb_prop in Hfor as [Hy Hys].
    change (applyEvents (y :: zs) st) with (applyEvents zs (applyEvent y st)).
    now rewrite (IH Hown Hys), (ticketsOf_foreign id y st Hy).
Qed.

Lemma findTicket_storesAlong (id : Z) (es : list Event) (st : list Ticket)
    (t0 : Ticket) :
  forallb (ownEvent id) es = true ->
  findTicket id st = Some t0 ->
  List.map (findTicket id) (storesAlong es st) = List.map Some (history es t0).
Proof.
  revert st t0; induction es as [|e es IH]; intros st t0 Hown Hfind;
    [reflexivity|].
  cbn [forallb] in Hown. apply andb_prop in Hown as [He Hes].
  assert (findTicket id (applyEvent e st) = Some (stepTicket e t0)) as Hstep.
  { rewrite findTicket_ticketsOf, (ticketsOf_own id e st He).
    rewrite findTicket_ticketsOf in Hfind.
    destruct (ticketsOf id st) as [|t1 rest]; [discriminate Hfind|].
    injection Hfind as ->. reflexivity. }
  cbn [storesAlong history List.map]. rewrite Hstep. f_equal.
  apply (IH _ _ Hes Hstep).
Qed.

Lemma last_storesAlong (es : list Event) (st : list Ticket) :
  last (storesAlong es st) st = applyEvents es st.
Proof.
  revert st; induction es as [|e es IH]; intros st; [reflexivity|].
  cbn [storesAlong]. rewrite last_cons_default. apply IH.
Qed.

Lemma findTicket_id (id : Z) (st : list Ticket) (t : Ticket) :
  findTicket id st = Some t -> Ticket.id t = id.
Proof.
  unfold findTicket. intros H. apply find_some in H as [_ H].
  now apply Z.eqb_eq.
Qed.

(** C8 (amended). A run on a resolvable ticket issues its effects in this
    order: stage := summarized, the Summarizer, its result into summary;
    stage := sentiment, the Sentiment Classifier, its results into sentiment
    and urgency; stage := routed, the Router, its result into action.  Each
    effect is applied to the store before the next is issued, and the
    ticket found under the id after each of them is as listed: the marker
    is set to summarized first, whatever it was, and from then on never
    moves backward.  It never moves backward at all when the ticket starts
    at uploaded or summarized; a run on a ticket already at sentiment or
    routed starts by moving it back to summarized. *)
Theorem runPipeline_marker_order tickets id ticketOverride ticket st t0 :
  resolve tickets id ticketOverride = Some ticket ->
  findTicket id st = Some t0 ->
  let text := Ticket.text ticket in
  let summary := summarize text in
  let sent := analyzeSentiment toLowerCase summary in
  let s := Some (Sent.sentiment sent) in
  let u := Some (Sent.urgency sent) in
  let a := Some (routeDecision u s) in
  let events :=
    trace (run (runPipeline toLowerCase tickets id ticketOverride) st) in
  let found := List.map (findTicket id) (storesAlong events st) in
  let state := Ticket.mk (Ticket.id t0) (Ticket.text t0) in
  events =
    [ Patched id (Patch.mk None None (Some summarized) None None None None);
      Summarizing text;
      Patched id (Patch.mk None None None (Some (Some summary)) None None None);
      Patched id (Patch.mk None None (Some sentiment) None None None None);
      Analyzing summary;
      Patched id (Patch.mk None None None None (Some s) (Some u) None);
      Patched id (Patch.mk None None (Some routed) None None None None);
      Routing u s;
      Patched id (Patch.mk None None None None None None (Some a)) ] /\
  found =
    [ Some (state summarized (Ticket.summary t0) (Ticket.sentiment t0)
              (Ticket.urgency t0) (Ticket.action t0));
      Some (state summarized (Ticket.summary t0) (Ticket.sentiment t0)
              (Ticket.urgency t0) (Ticket.action t0));
      Some (state summarized (Some summary) (Ticket.sentiment t0)
              (Ticket.urgency t0) (Ticket.action t0));
      Some (state sentiment (Some summary) (Ticket.sentiment t0)
              (Ticket.urgency t0) (Ticket.action t0));
      Some (state sentiment (Some summary) (Ticket.sentiment t0)
              (Ticket.urgency t0) (Ticket.action t0));
      Some (state sentiment (Some summary) s u (Ticket.action t0));
      Some (state routed (Some summary) s u (Ticket.action t0));
      Some (state routed (Some summary) s u (Ticket.action t0));
      Some (state routed (Some summary) s u a) ] /\
  last (storesAlong events st) st
    = store (run (runPipeline toLowerCase tickets id ticketOverride) st) /\
  nondecreasing (markerRanks found) = true /\
  (Ticket.stage t0 = uploaded \/ Ticket.stage t0 = summarized ->
   nondecreasing (markerRanks (Some t0 :: found)) = true) /\
  (Ticket.stage t0 = sentiment \/ Ticket.stage t0 = routed ->
   nondecreasing (markerRanks (Some t0 :: found)) = false).
Proof.
  intros Hres Hfind text summary sent s u a events found state.
  assert (events = pipelineEvents toLowerCase id text) as E
    by (apply runPipeline_trace; exact Hres).
  assert (found = List.map Some (history events t0)) as F.
  { subst found. apply (findTicket_storesAlong id); [|exact Hfind].
    rewrite E. apply pipelineEvents_own. }
  pose proof (findTicket_id _ _ _ Hfind) as Hid.
  assert (history events t0 =
    [ state summarized (Ticket.summary t0) (Ticket.sentiment t0)
        (Ticket.urgency t0) (Ticket.action t0);
      state summarized (Ticket.summary t0) (Ticket.sentiment t0)
        (Ticket.urgency t0) (Ticket.action t0);
      state summarized (Some summary) (Ticket.sentiment t0)
        (Ticket.urgency t0) (Ticket.action t0);
      state sentiment (Some summary) (Ticket.sentiment t0)
        (Ticket.urgency t0) (Ticket.action t0);
      state sentiment (Some summary) (Ticket.sentiment t0)
        (Ticket.urgency t0) (Ticket.action t0);
      state sentiment (Some summary) s u (Ticket.action t0);
      state routed (Some summary) s u (Ticket.action t0);
      state routed (Some summary) s u (Ticket.action t0);
      state routed (Some summary) s u a ]) as Hh.
  { rewrite E. subst state s u a sent summary text. clear F E found events.
    rewrite <- Hid. destruct t0 as [i tx sg sm se ur ac].
    unfold pipelineEvents. step_ticket.
    repeat (rewrite Z.eqb_refl; step_ticket). reflexivity. }
  split; [exact E|]. rewrite F, Hh.
  split; [reflexivity|]. split.
  { rewrite last_storesAlong, E. symmetry. now apply runPipeline_store. }
  split; [reflexivity|]. split.
  - intros [S0 | S0]; cbn [List.map markerRanks flat_map app];
      rewrite S0; reflexivity.
  - intros [S0 | S0]; cbn [List.map markerRanks flat_map app];
      rewrite S0; reflexivity.
Qed.

(** C4. When [run(id)] resolves its ticket and the store holds a ticket of
    that id, then after the run, under any interleaving with effects that do
    not address that id, the ticket found under [id] has stage [routed] and
    its summary, sentiment, urgency and action set to what the three stage
    functions computed; the same holds of every ticket of that id. *)
Theorem runPipeline_routes tickets id ticketOverride ticket st t0
    (others schedule : list Event) :
  resolve tickets id ticketOverride = Some ticket ->
  findTicket id st = Some t0 ->
  forallb (foreignTo id) others = true ->
  Interleaving
    (trace (run (runPipeline toLowerCase tickets id ticketOverride) st))
    others schedule ->
  let summary := summarize (Ticket.text ticket) in
  let sent := analyzeSentiment toLowerCase summary in
  findTicket id (applyEvents schedule st)
  = Some (Ticket.mk (Ticket.id t0) (Ticket.text t0) routed (Some summary)
            (Some (Sent.sentiment sent)) (Some (Sent.urgency sent))
            (Some (routeDecision (Some (Sent.urgency sent))
                                 (Some (Sent.sentiment sent))))) /\
  (forall t, In t (applyEvents schedule st) -> Ticket.id t = id ->
     Ticket.stage t = routed /\
     Ticket.summary t = Some summary /\
     Ticket.sentiment t = Some (Sent.sentiment sent) /\
     Ticket.urgency t = Some (Sent.urgency sent) /\
     Ticket.action t = Some (routeDecision (Some (Sent.urgency sent))
                                           (Some (Sent.sentiment sent)))).
Proof.
  intros Hres Hfind Hfor Hil summary sent.
  rewrite (runPipeline_trace _ _ _ _ _ Hres) in Hil.
  pose proof (ticketsOf_interleaved id _ _ _ Hil
                (pipelineEvents_own id _) Hfor st) as E.
  assert (forall t, Ticket.id t = id ->
            last (history (pipelineEvents toLowerCase id (Ticket.text ticket)) t) t
            = routedTicket toLowerCase (Ticket.text ticket) t) as Hlast
    by (intros t Ht; apply pipelineEvents_history; exact Ht).
  split.
  - rewrite findTicket_ticketsOf, E.
    rewrite findTicket_ticketsOf in Hfind.
    destruct (ticketsOf id st) as [|t1 rest] eqn:Ev; [discriminate Hfind|].
    injection Hfind as ->. cbn [List.map hd_error].
    rewrite Hlast; [reflexivity|].
    assert (In t0 (ticketsOf id st)) as Hin by (rewrite Ev; now left).
    apply filter_In in Hin as [_ Hin]. now apply Z.eqb_eq.
  - intros t Hin Ht.
    assert (In t (ticketsOf id (applyEvents schedule st))) as Hin'
      by (apply filter_In; split; [exact Hin | now apply Z.eqb_eq]).
    rewrite E in Hin'. apply in_map_iff in Hin' as [t1 [<- Hin1]].
    apply filter_In in Hin1 as [_ Hid]. apply Z.eqb_eq in Hid.
    rewrite (Hlast t1 Hid). repeat split.
Qed.

End OrchestratorFacts.

(** ** Ingestion Entry Point *)

Lemma fold_left_max_bounds (l : list Z) (a : Z) :
  (a <= fold_left Z.max l a)%Z /\
  (forall y, In y l -> (y <= fold_left Z.max l a)%Z).
Proof.
  revert a; induction l as [|x l IH]; intros a; cbn [fold_left].
  - split; [lia | intros y []].
  - destruct (IH (Z.max a x)) as [H1 H2]. split; [lia|].
    intros y [<- | Hy]; [lia | now apply H2].
Qed.

Lemma fold_left_max_In (l : list Z) (a : Z) :
  fold_left Z.max l a = a \/ In (fold_left Z.max l a) l.
Proof.
  revert a; induction l as [|x l IH]; intros a; cbn [fold_left]; [now left|].
  destruct (IH (Z.max a x)) as [E | Hin].
  - rewrite E. destruct (Z.max_spec a x) as [[_ ->] | [_ ->]];
      [right; now left | now left].
  - right. now right.
Qed.

Lemma plusOne_exact (m : Z) :
  (- two53 <= m < two53)%Z -> plusOne m = (m + 1)%Z.
Proof.
  intros [L U]. unfold plusOne.
  apply Z.leb_le in L. apply Z.ltb_lt in U. now rewrite L, U.
Qed.

Lemma nextId_defined (argumentLimit : nat) (tickets : list Ticket) :
  List.length tickets <= argumentLimit ->
  exists id, nextId argumentLimit tickets = Some id.
Proof.
  intros H. unfold nextId.
  destruct (List.map Ticket.id tickets) as [|x rest]; [now exists 1%Z|].
  apply Nat.ltb_ge in H. rewrite H. eexists. reflexivity.
Qed.

(** The id given when the greatest id is in the exact range: 1 for the empty
    list, the greatest id plus one otherwise. *)
Lemma nextId_value (argumentLimit : nat) (tickets : list Ticket) (id : Z) :
  nextId argumentLimit tickets = Some id ->
  (forall t, In t tickets -> (- two53 <= Ticket.id t < two53)%Z) ->
  (tickets = [] /\ id = 1%Z) \/
  (exists t, In t tickets /\ id = (Ticket.id t + 1)%Z /\
             forall u, In u tickets -> (Ticket.id u <= Ticket.id t)%Z).
Proof.
  unfold nextId. intros H Hsafe.
  destruct tickets as [|t0 rest].
  { left. cbn [List.map] in H. injection H as <-. now split. }
  right. cbn [List.map] in H.
  destruct (argumentLimit <? List.length (t0 :: rest)); [discriminate H|].
  injection H as <-.
  set (m := fold_left Z.max (List.map Ticket.id rest) (Ticket.id t0)).
  destruct (fold_left_max_bounds (List.map Ticket.id rest) (Ticket.id t0))
    as [B1 B2]. fold m in B1, B2.
  assert (exists t, In t (t0 :: rest) /\ Ticket.id t = m) as [t [Hin Ht]].
  { destruct (fold_left_max_In (List.map Ticket.id rest) (Ticket.id t0))
      as [E | Hin]; fold m in E || fold m in Hin.
    - exists t0. split; [now left | now symmetry].
    - apply in_map_iff in Hin as [t [E Hin]]. exists t. split; [now right | exact E]. }
  exists t. split; [exact Hin|]. split.
  - rewrite plusOne_exact; [now rewrite Ht|]. rewrite <- Ht. now apply Hsafe.
  - intros u [<- | Hu]; rewrite Ht; [exact B1|].
    apply B2. now apply in_map.
Qed.

Lemma nextId_above (argumentLimit : nat) (tickets : list Ticket) (id : Z) :
  nextId argumentLimit tickets = Some id ->
  (forall t, In t tickets -> (- two53 <= Ticket.id t < two53)%Z) ->
  forall t, In t tickets -> (Ticket.id t < id)%Z.
Proof.
  intros H Hsafe t Hin.
  destruct (nextId_value _ _ _ H Hsafe) as [[-> _] | [m [_ [-> Hmax]]]];
    [destruct Hin|].
  specialize (Hmax t Hin). lia.
Qed.

Lemma nextId_empty (argumentLimit : nat) : nextId argumentLimit [] = Some 1%Z.
Proof. reflexivity. Qed.

(** What [addTicket] does to the store when the id computation returns. *)
Lemma addTicket_store (argumentLimit : nat) (tickets st : list Ticket)
    (text : jsstring) (id : Z) :
  nextId argumentLimit tickets = Some id ->
  store (run (addTicket argumentLimit tickets text) st)
  = Ticket.mk id text uploaded None None None None :: st.
Proof. intros H. unfold run, addTicket. now rewrite H. Qed.

(** One add by a render that has seen the store, with room for it and for
    [n] more. *)
Lemma addTicket_rendered (argumentLimit n : nat) (st : list Ticket)
    (text : jsstring) :
  roomFor argumentLimit (S n) st ->
  exists id,
    store (run (addTicket argumentLimit st text) st)
    = Ticket.mk id text uploaded None None None None :: st /\
    (forall t, In t st -> (Ticket.id t < id)%Z) /\
    roomFor argumentLimit n
      (Ticket.mk id text uploaded None None None None :: st).
Proof.
  intros (Hlen & Hn & Hids).
  destruct (nextId_defined argumentLimit st) as [id Hid]; [lia|].
  assert (forall t, In t st -> (- two53 <= Ticket.id t < two53)%Z) as Hsafe
    by (intros t Hin; destruct (Hids t Hin); lia).
  exists id. split; [now apply addTicket_store|].
  split; [now apply (nextId_above argumentLimit st id Hid Hsafe)|].
  split; [cbn [List.length]; lia|]. split; [lia|].
  intros t [<- | Hin]; cbn [Ticket.id].
  - destruct (nextId_value _ _ _ Hid Hsafe) as [[_ ->] | [m [Hm [-> _]]]].
    + lia.
    + destruct (Hids m Hm). lia.
  - destruct (Hids t Hin). lia.
Qed.

Lemma addEachRendered_unique (argumentLimit : nat) (texts : list jsstring)
    (st : list Ticket) :
  roomFor argumentLimit (List.length texts) st ->
  NoDup (List.map Ticket.id st) ->
  NoDup (List.map Ticket.id (addEachRendered argumentLimit texts st)).
Proof.
  revert st; induction texts as [|text rest IH]; intros st Hroom H; [exact H|].
  cbn [addEachRendered List.length] in *.
  destruct (addTicket_rendered argumentLimit _ st text Hroom)
    as (id & -> & Habove & Hroom').
  apply (IH _ Hroom').
  cbn [List.map Ticket.id]. constructor; [|exact H].
  intros Hin. apply in_map_iff in Hin as [t [E Hin]].
  apply Habove in Hin. lia.
Qed.

(** C2 fails on the code: two [add] calls made through the [addTicket] of
    the same render both read the ids the render captured, and the second
    ticket gets the id of the first.  On the seed data both get id 4; in
    general both get the id computed from the captured list, whatever the
    store holds by then. *)
Theorem addTicket_same_render_duplicates :
  (forall argumentLimit, 3 <= argumentLimit ->
     List.map Ticket.id
       (addEachSameRender argumentLimit initialTickets
          [lit "first"; lit "second"] initialTickets)
     = [4; 4; 1; 2; 3]%Z) /\
  (forall argumentLimit tickets text1 text2 st id,
     nextId argumentLimit tickets = Some id ->
     List.map Ticket.id
       (addEachSameRender argumentLimit tickets [text1; text2] st)
     = id :: id :: List.map Ticket.id st) /\
  (forall argumentLimit, 3 <= argumentLimit ->
     ~ NoDup (List.map Ticket.id
                (addEachSameRender argumentLimit initialTickets
                   [lit "first"; lit "second"] initialTickets))).
Proof.
  assert (forall argumentLimit tickets text1 text2 st id,
            nextId argumentLimit tickets = Some id ->
            List.map Ticket.id
              (addEachSameRender argumentLimit tickets [text1; text2] st)
            = id :: id :: List.map Ticket.id st) as G.
  { intros argumentLimit tickets text1 text2 st id H.
    cbn [addEachSameRender]. now rewrite !(addTicket_store _ _ _ _ _ H). }
  assert (forall argumentLimit, 3 <= argumentLimit ->
            nextId argumentLimit initialTickets = Some 4%Z) as N.
  { intros argumentLimit H. unfold nextId. cbn [List.map initialTickets List.length].
    apply Nat.ltb_ge in H. now rewrite H. }
  split; [intros argumentLimit H; now rewrite (G _ _ _ _ _ _ (N _ H))|].
  split; [exact G|].
  intros argumentLimit H Hnd. rewrite (G _ _ _ _ _ _ (N _ H)) in Hnd.
  inversion Hnd as [|x l Hnotin _]; subst. apply Hnotin. now left.
Qed.

(** ** Bulk Runner *)

Lemma normalize_nil_blank (text : jsstring) :
  normalize text = [] <-> blank text = true.
Proof.
  unfold normalize, trim, blank. rewrite trimStart_replaceSpaceRuns.
  induction text as [|c r IH]; [now split|].
  cbn [replaceSpaceRuns forallb].
  destruct (isWhiteSpace c) eqn:Hc; [exact IH|].
  rewrite (trimEnd_cons_word c _ Hc). split; discriminate.
Qed.

Lemma summarize_nil_blank (text : jsstring) :
  summarize text = [] <-> blank text = true.
Proof.
  rewrite <- normalize_nil_blank. unfold summarize, slice0.
  destruct (120 <? List.length (normalize text)) eqn:L; [|tauto].
  apply Nat.ltb_lt in L.
  destruct (normalize text) as [|c s]; [cbn in L; lia|].
  split; discriminate.
Qed.

Lemma routeDecision_truthy (urgency sentiment : option jsstring) :
  truthy (Some (routeDecision urgency sentiment)) = true.
Proof.
  unfold routeDecision.
  now destruct (isLit urgency critical || isLit urgency high
                || isLit sentiment angry).
Qed.

(** After a completed run on every ticket, [runAll] starts a run for
    exactly the tickets whose text is blank, and for none when no text is. *)
Lemma runAll_after_completion (toLowerCase : jsstring -> jsstring)
    (tickets : list Ticket) :
  runAll (List.map (fun t => routedTicket toLowerCase (Ticket.text t) t) tickets)
  = List.map Ticket.id (filter (fun t => blank (Ticket.text t)) tickets).
Proof.
  unfold runAll. induction tickets as [|t rest IH]; [reflexivity|].
  cbn [List.map filter].
  assert (needsRun (routedTicket toLowerCase (Ticket.text t) t)
          = blank (Ticket.text t)) as E.
  { unfold needsRun, routedTicket.
    cbn [Ticket.summary Ticket.action].
    rewrite routeDecision_truthy, orb_false_r.
    destruct (blank (Ticket.text t)) eqn:B.
    - apply summarize_nil_blank in B. now rewrite B.
    - destruct (summarize (Ticket.text t)) eqn:S; [|reflexivity].
      apply summarize_nil_blank in S. congruence. }
  rewrite E. destruct (blank (Ticket.text t)); cbn [List.map]; now rewrite IH.
Qed.

(** C1 fails on the code: a ticket whose text is white space only has the
    empty summary after its run, the empty string is falsy, and [runAll]
    starts its pipeline again.  In general, after a completed run on every
    ticket [runAll] invokes the Orchestrator for each ticket of blank text. *)
Theorem runAll_reruns_blank_ticket :
  (let tickets := [Ticket.mk 1 (lit "   ") uploaded None None None None] in
   let done :=
     store (run (runPipeline toLowerCaseAscii tickets 1 None) tickets) in
   done = [Ticket.mk 1 (lit "   ") routed (Some [])
             (Some neutral) (Some medium) (Some normal_queue)] /\
   runAll done = [1%Z]) /\
  (forall toLowerCase tickets t,
     In t tickets -> blank (Ticket.text t) = true ->
     In (Ticket.id t)
        (runAll (List.map (fun t => routedTicket toLowerCase (Ticket.text t) t)
                          tickets))).
Proof.
  split; [split; reflexivity|].
  intros toLowerCase tickets t Hin Hb.
  rewrite runAll_after_completion.
  apply in_map. apply filter_In. now split.
Qed.

(** ** The seed tickets, end to end *)

Example seed_ticket_1 :
  option_map (fun t => (Ticket.stage t, Ticket.sentiment t, Ticket.urgency t,
                        Ticket.action t)) (seedRun 1)
  = Some (routed, Some frustrated, Some high, Some escalate_to_human).
Proof. reflexivity. Qed.

Example seed_ticket_2 :
  option_map (fun t => (Ticket.stage t, Ticket.sentiment t, Ticket.urgency t,
                        Ticket.action t)) (seedRun 2)
  = Some (routed, Some neutral, Some low, Some normal_queue).
Proof. reflexivity. Qed.

Example seed_ticket_3 :
  option_map (fun t => (Ticket.stage t, Ticket.sentiment t, Ticket.urgency t,
                        Ticket.action t)) (seedRun 3)
  = Some (routed, Some angry, Some critical, Some escalate_to_human).
Proof. reflexivity. Qed.

Example seed_unknown_id :
  run (runPipeline toLowerCaseAscii initialTickets 7 None) initialTickets
  = mkWorld initialTickets [].
Proof. reflexivity. Qed.

Lemma runPipeline_marker_order_witness :
  let events :=
    trace (run (runPipeline toLowerCaseAscii initialTickets 2 None)
               initialTickets) in
  resolve initialTickets 2 None <> None /\
  findTicket 2 initialTickets <> None /\
  List.map (option_map Ticket.stage)
    (List.map (findTicket 2) (storesAlong events initialTickets))
  = [Some summarized; Some summarized; Some summarized;
     Some sentiment; Some sentiment; Some sentiment;
     Some routed; Some routed; Some routed].
Proof.
  intros events. split; [discriminate|]. split; [discriminate|].
  destruct (runPipeline_marker_order toLowerCaseAscii initialTickets 2 None
              (nth 1 initialTickets (Ticket.mk 0 [] uploaded None None None None))
              initialTickets
              (nth 1 initialTickets (Ticket.mk 0 [] uploaded None None None None))
              eq_refl eq_refl) as (_ & H & _).
  subst events. rewrite H. reflexivity.
Defined.

(** C8 as the specification states it fails on a re-run: ticket 3 of the
    seed data is at routed after its first run, and the first patch of a
    second run moves its marker back to summarized. *)
Lemma rerun_moves_marker_back :
  let done :=
    store (run (runPipeline toLowerCaseAscii initialTickets 3 None)
               initialTickets) in
  let events := trace (run (runPipeline toLowerCaseAscii done 3 None) done) in
  let found := List.map (findTicket 3) (done :: storesAlong events done) in
  resolve done 3 None <> None /\
  List.map (option_map Ticket.stage) found
  = [Some routed;
     Some summarized; Some summarized; Some summarized;
     Some sentiment; Some sentiment; Some sentiment;
     Some routed; Some routed; Some routed] /\
  markerRanks found = [3; 1; 1; 1; 2; 2; 2; 3; 3; 3] /\
  nondecreasing (markerRanks found) = false.
Proof.
  cbv zeta. split; [vm_compute; discriminate|].
  repeat split; vm_compute; reflexivity.
Qed.

(** The run for ticket 3 interleaved with the first patch of a run for
    ticket 1 and with the insertion of a new ticket. *)
Lemma runPipeline_routes_witness :
  let own :=
    trace (run (runPipeline toLowerCaseAscii initialTickets 3 None)
               initialTickets) in
  let others :=
    [ Patched 1 (patch_stage summarized);
      Inserted (Ticket.mk 4 (lit "hello") uploaded None None None None) ] in
  let schedule :=
    Patched 1 (patch_stage summarized) :: firstn 2 own
    ++ Inserted (Ticket.mk 4 (lit "hello") uploaded None None None None)
    :: skipn 2 own in
  option_map (fun t => (Ticket.stage t, Ticket.sentiment t, Ticket.urgency t,
                        Ticket.action t))
    (findTicket 3 (applyEvents schedule initialTickets))
  = Some (routed, Some angry, Some critical, Some escalate_to_human).
Proof.
  intros own others schedule.
  assert (Interleaving own others schedule) as Hil.
  { subst own others schedule. vm_compute. repeat constructor. }
  destruct (runPipeline_routes toLowerCaseAscii initialTickets 3 None
              (nth 2 initialTickets (Ticket.mk 0 [] uploaded None None None None))
              initialTickets
              (nth 2 initialTickets (Ticket.mk 0 [] uploaded None None None None))
              others schedule eq_refl eq_refl eq_refl Hil) as [H _].
  rewrite H. reflexivity.
Defined.

(** * Further properties of the component *)

(** ** Summarizer: shape of the summary *)

Lemma normalFrom_shape (s : jsstring) (afterWord : bool) :
  normalFrom afterWord s = true ->
  (forall c, In c s -> isWhiteSpace c = true -> c = SP) /\
  (forall pre x y post, s = pre ++ x :: y :: post ->
     isWhiteSpace x = true -> isWhiteSpace y = false) /\
  (afterWord = false -> forall c r, s = c :: r -> isWhiteSpace c = false) /\
  (forall pre c, s = pre ++ [c] -> isWhiteSpace c = false).
Proof.
  revert afterWord; induction s as [|c r IH]; intros afterWord H.
  - repeat split.
    + intros c [].
    + intros [|a pre] x y post E; discriminate E.
    + intros _ c r E; discriminate E.
    + intros [|a pre] c E; discriminate E.
  - cbn [normalFrom] in H. destruct (isWhiteSpace c) eqn:Hc.
    + apply andb_prop in H as [H Hr]. apply andb_prop in H as [H Hne].
      apply andb_prop in H as [Ha Hsp]. apply N.eqb_eq in Hsp.
      destruct (IH false Hr) as (I1 & I2 & I3 & I4).
      repeat split.
      * intros d [<- | Hd] Hw; [exact Hsp | now apply I1].
      * intros [|a pre] x y post E Hx; inversion E; subst.
        -- now apply (I3 eq_refl y post).
        -- now apply (I2 pre x y post).
      * intros Hf. rewrite Hf in Ha. discriminate Ha.
      * intros [|a pre] d E; inversion E; subst; [discriminate Hne|].
        now apply (I4 pre d).
    + destruct (IH true H) as (I1 & I2 & _ & I4).
      repeat split.
      * intros d [<- | Hd] Hw; [congruence | now apply I1].
      * intros [|a pre] x y post E Hx; inversion E; subst; [congruence|].
        now apply (I2 pre x y post).
      * intros _ d r' E. inversion E; subst. exact Hc.
      * intros [|a pre] d E; inversion E; subst; [exact Hc|].
        now apply (I4 pre d).
Qed.

Lemma normal_summarize (text : jsstring) : normal (summarize text) = true.
Proof.
  unfold summarize, slice0.
  destruct (120 <? List.length (normalize text)).
  - apply normalFrom_truncated; [reflexivity | reflexivity |].
    apply normal_normalize.
  - apply normal_normalize.
Qed.

(** X1. The summary is the empty string exactly when the text is empty or
    consists of white space only. *)
Theorem summarize_empty_iff_blank (text : jsstring) :
  summarize text = [] <-> forallb isWhiteSpace text = true.
Proof. apply summarize_nil_blank. Qed.

(** X2. In a summary the only white space is the SPACE code unit, no two
    white-space code units are adjacent, and neither the first nor the last
    code unit is white space. *)
Theorem summarize_tidy (text : jsstring) :
  (forall c, In c (summarize text) -> isWhiteSpace c = true -> c = SP) /\
  (forall pre x y post, summarize text = pre ++ x :: y :: post ->
     isWhiteSpace x = true -> isWhiteSpace y = false) /\
  (forall c r, summarize text = c :: r -> isWhiteSpace c = false) /\
  (forall pre c, summarize text = pre ++ [c] -> isWhiteSpace c = false).
Proof.
  destruct (normalFrom_shape _ false (normal_summarize text))
    as (H1 & H2 & H3 & H4).
  repeat split; [exact H1 | exact H2 | exact (H3 eq_refl) | exact H4].
Qed.

(** ** Summarizer: the words of the text *)

Lemma fields_word_then_space (w : jsstring) (c : codeunit) (r : jsstring) :
  wordLike w = true -> isWhiteSpace c = true ->
  fields (w ++ c :: r) = w :: fields r.
Proof.
  intros Hw Hc. induction w as [|x w IH]; cbn [app fields].
  - now rewrite Hc.
  - cbn [wordLike forallb] in Hw. apply andb_prop in Hw as [Hx Hw].
    apply negb_true_iff in Hx. rewrite Hx, (IH Hw). reflexivity.
Qed.

Lemma fields_word (w : jsstring) : wordLike w = true -> fields w = [w].
Proof.
  intros Hw. induction w as [|x w IH]; [reflexivity|].
  cbn [wordLike forallb] in Hw. apply andb_prop in Hw as [Hx Hw].
  apply negb_true_iff in Hx. cbn [fields]. now rewrite Hx, (IH Hw).
Qed.

Lemma fields_wordLike (s : jsstring) : Forall (fun w => wordLike w = true) (fields s).
Proof.
  induction s as [|c r IH]; cbn [fields].
  - repeat constructor.
  - destruct (isWhiteSpace c) eqn:Hc.
    + constructor; [reflexivity | exact IH].
    + destruct (fields r) as [|w ws].
      * repeat constructor. cbn. now rewrite Hc.
      * inversion IH; subst. constructor; [|assumption].
        cbn [wordLike forallb]. rewrite Hc. assumption.
Qed.

Lemma words_unwords (ws : list jsstring) :
  Forall (fun w => wordLike w = true) ws ->
  Forall (fun w => nonEmpty w = true) ws ->
  words (unwords ws) = ws.
Proof.
  induction ws as [|w rest IH]; intros Hw Hn; [reflexivity|].
  inversion Hw as [|? ? Hw1 Hw2]; inversion Hn as [|? ? Hn1 Hn2]; subst.
  destruct rest as [|w2 rest].
  - cbn [unwords]. unfold words. rewrite (fields_word w Hw1).
    cbn [filter]. now rewrite Hn1.
  - change (unwords (w :: w2 :: rest)) with (w ++ SP :: unwords (w2 :: rest)).
    unfold words. rewrite (fields_word_then_space w SP _ Hw1 eq_refl).
    cbn [filter]. rewrite Hn1. f_equal. apply (IH Hw2 Hn2).
Qed.

Lemma words_normalize (text : jsstring) : words (normalize text) = words text.
Proof.
  rewrite normalize_normalize_spec. unfold normalize_spec.
  apply words_unwords.
  - unfold words. apply Forall_forall. intros w Hin.
    apply filter_In in Hin as [Hin _].
    pose proof (fields_wordLike text) as F. rewrite Forall_forall in F.
    now apply F.
  - unfold words. apply Forall_forall. intros w Hin.
    now apply filter_In in Hin.
Qed.

Lemma length_replaceSpaceRuns (s : jsstring) (inRun : bool) :
  List.length (replaceSpaceRuns inRun s) <= List.length s.
Proof.
  revert inRun; induction s as [|c r IH]; intros inRun; [reflexivity|].
  cbn [replaceSpaceRuns]. destruct (isWhiteSpace c).
  - destruct inRun; cbn [List.length].
    + specialize (IH true). lia.
    + specialize (IH true). lia.
  - cbn [List.length]. specialize (IH false). lia.
Qed.

Lemma length_trimEnd (s : jsstring) : List.length (trimEnd s) <= List.length s.
Proof.
  induction s as [|c r IH]; [reflexivity|].
  cbn [trimEnd]. destruct (trimEnd r) as [|x t].
  - destruct (isWhiteSpace c); cbn [List.length]; lia.
  - cbn [List.length] in *. lia.
Qed.

Lemma length_normalize (text : jsstring) :
  List.length (normalize text) <= List.length text.
Proof.
  unfold normalize, trim. rewrite trimStart_replaceSpaceRuns.
  pose proof (length_trimEnd (replaceSpaceRuns true text)).
  pose proof (length_replaceSpaceRuns text true). lia.
Qed.

(** X3. Two texts with the same words, whatever white space separates or
    surrounds them, have the same summary. *)
Theorem summarize_words_only (text1 text2 : jsstring) :
  words text1 = words text2 -> summarize text1 = summarize text2.
Proof.
  intros H. unfold summarize.
  rewrite !normalize_normalize_spec. unfold normalize_spec. now rewrite H.
Qed.

(** X4. A summary that was not truncated has exactly the words of the text,
    in the same order. *)
Theorem summarize_keeps_words (text : jsstring) :
  List.length (normalize text) <= 120 ->
  words (summarize text) = words text.
Proof.
  intros H. unfold summarize.
  apply Nat.ltb_ge in H. rewrite H. apply words_normalize.
Qed.

(** X5. A text of at most 120 code units is never truncated: its summary
    is its normal form and is not longer than the text. *)
Theorem summarize_short_text (text : jsstring) :
  List.length text <= 120 ->
  summarize text = normalize text /\
  List.length (summarize text) <= List.length text.
Proof.
  intros H. pose proof (length_normalize text) as L.
  assert (summarize text = normalize text) as E.
  { unfold summarize.
    assert ((120 <? List.length (normalize text)) = false) as F
      by (apply Nat.ltb_ge; lia).
    now rewrite F. }
  rewrite E. split; [reflexivity | exact L].
Qed.

Lemma summarize_words_only_witness :
  words (lit "  late   delivery ") = words (lit "late delivery") /\
  summarize (lit "  late   delivery ") = summarize (lit "late delivery").
Proof.
  split; [reflexivity|].
  apply (summarize_words_only (lit "  late   delivery ") (lit "late delivery")).
  reflexivity.
Defined.

Lemma summarize_keeps_words_witness :
  List.length (normalize (lit "  late   delivery ")) <= 120 /\
  words (summarize (lit "  late   delivery ")) = words (lit "  late   delivery ").
Proof.
  split; [vm_compute; lia|].
  apply (summarize_keeps_words (lit "  late   delivery ")).
  vm_compute; lia.
Defined.

Lemma summarize_short_text_witness :
  List.length (lit "  late   delivery ") <= 120 /\
  summarize (lit "  late   delivery ") = normalize (lit "  late   delivery ") /\
  List.length (summarize (lit "  late   delivery "))
  <= List.length (lit "  late   delivery ").
Proof.
  split; [vm_compute; lia|].
  apply (summarize_short_text (lit "  late   delivery ")).
  vm_compute; lia.
Defined.

(** ** Classifier and Router together *)

Lemma inability_passes_gate (lower : jsstring) :
  test inabilityWords lower = true -> test negativeWords lower = true.
Proof.
  intros H. apply existsb_exists in H as [p [Hin Hp]].
  apply (test_In _ _ p); [|exact Hp].
  unfold inabilityWords in Hin. unfold negativeWords.
  cbn [In] in *. intuition.
Qed.

Section TriageFacts.

Variable toLowerCase : jsstring -> jsstring.

(** X6. The action the pipeline computes for a summary is
    [escalate_to_human] exactly when the lower-cased summary contains one of
    the negative keywords, and [normal_queue] otherwise; gratitude words
    play no part in it. *)
Theorem escalates_iff_negative_keyword (summary : jsstring) :
  let sent := analyzeSentiment toLowerCase summary in
  let action :=
    routeDecision (Some (Sent.urgency sent)) (Some (Sent.sentiment sent)) in
  (action = escalate_to_human <->
   test negativeWords (toLowerCase summary) = true) /\
  (action = normal_queue <->
   test negativeWords (toLowerCase summary) = false).
Proof.
  unfold analyzeSentiment.
  destruct (test negativeWords (toLowerCase summary)).
  - destruct (test threatPhrases (toLowerCase summary));
      [|destruct (test inabilityWords (toLowerCase summary))];
      (split; split; intros H; try reflexivity; discriminate H).
  - destruct (test gratitudeWords (toLowerCase summary));
      (split; split; intros H; try reflexivity; discriminate H).
Qed.

(** X7. A summary whose lower-cased form contains an inability word (can't,
    cannot, unable, fail, error) and no threat phrase is classified
    frustrated/high: every inability word also opens the negative gate. *)
Theorem inability_is_frustrated (summary : jsstring) :
  test inabilityWords (toLowerCase summary) = true ->
  test threatPhrases (toLowerCase summary) = false ->
  analyzeSentiment toLowerCase summary = Sent.mk frustrated high.
Proof.
  intros Hi Ht. unfold analyzeSentiment.
  now rewrite (inability_passes_gate _ Hi), Ht, Hi.
Qed.

(** X8. On what the classifier returns the Router decides by the urgency
    alone: the sentiment is angry only together with urgency critical, so
    dropping the sentiment from the Router's input never changes the
    action. *)
Theorem router_sentiment_never_decides (summary : jsstring) :
  let sent := analyzeSentiment toLowerCase summary in
  (Sent.sentiment sent = angry -> Sent.urgency sent = critical) /\
  routeDecision (Some (Sent.urgency sent)) (Some (Sent.sentiment sent))
  = routeDecision (Some (Sent.urgency sent)) None.
Proof.
  unfold analyzeSentiment.
  destruct (test negativeWords (toLowerCase summary)).
  - destruct (test threatPhrases (toLowerCase summary));
      [|destruct (test inabilityWords (toLowerCase summary))];
      (split; [intros H; try reflexivity; discriminate H | reflexivity]).
  - destruct (test gratitudeWords (toLowerCase summary));
      (split; [intros H; try reflexivity; discriminate H | reflexivity]).
Qed.

End TriageFacts.

Lemma inability_is_frustrated_witness :
  let summary := lit "Unable to log in since Monday" in
  test inabilityWords (toLowerCaseAscii summary) = true /\
  test threatPhrases (toLowerCaseAscii summary) = false /\
  analyzeSentiment toLowerCaseAscii summary = Sent.mk frustrated high.
Proof.
  cbv zeta. split; [vm_compute; reflexivity|].
  split; [vm_compute; reflexivity|].
  apply (inability_is_frustrated toLowerCaseAscii); vm_compute; reflexivity.
Defined.

(** ** Ticket store: lookups and composition of patches *)

Lemma given_later {A} (o1 o2 : option A) (old : A) :
  given o2 (given o1 old) = given (later o1 o2) old.
Proof. now destruct o2. Qed.

Lemma merge_overlay (t : Ticket) (p1 p2 : Patch) :
  merge (merge t p1) p2 = merge t (overlay p1 p2).
Proof.
  unfold merge, overlay.
  cbn [Ticket.id Ticket.text Ticket.stage Ticket.summary Ticket.sentiment
       Ticket.urgency Ticket.action Patch.id Patch.text Patch.stage
       Patch.summary Patch.sentiment Patch.urgency Patch.action].
  now rewrite !given_later.
Qed.

Lemma merge_twice (t : Ticket) (patch : Patch) :
  merge (merge t patch) patch = merge t patch.
Proof.
  rewrite merge_overlay. destruct patch as [i tx sg sm se ur ac].
  unfold overlay, merge.
  cbn [Patch.id Patch.text Patch.stage Patch.summary Patch.sentiment
       Patch.urgency Patch.action].
  f_equal;
    match goal with |- given (later ?o ?o) _ = _ => now destruct o end.
Qed.

Lemma merge_keeps_id (t : Ticket) (patch : Patch) :
  Patch.id patch = None -> Ticket.id (merge t patch) = Ticket.id t.
Proof. intros H. unfold merge. cbn [Ticket.id]. now rewrite H. Qed.

(** X9. A patch without an [id] key leaves the ids of the store as they
    are, position by position; in particular it keeps them unique. *)
Theorem updateTicket_keeps_ids (prev : list Ticket) (id : Z) (patch : Patch) :
  Patch.id patch = None ->
  List.map Ticket.id (updateTicket id patch prev) = List.map Ticket.id prev /\
  (NoDup (List.map Ticket.id prev) ->
   NoDup (List.map Ticket.id (updateTicket id patch prev))).
Proof.
  intros H.
  assert (List.map Ticket.id (updateTicket id patch prev)
          = List.map Ticket.id prev) as E.
  { unfold updateTicket. rewrite map_map. apply map_ext. intros t.
    destruct (Ticket.id t =? id)%Z; [now apply merge_keeps_id | reflexivity]. }
  split; [exact E | now rewrite E].
Qed.

(** X10. Looking a ticket up after a patch without an [id] key: under the
    patched id one finds the ticket that was found before, with the patch
    merged in (or still nothing); under any other id one finds what was
    found before. *)
Theorem findTicket_updateTicket (prev : list Ticket) (id id' : Z)
    (patch : Patch) :
  Patch.id patch = None ->
  findTicket id' (updateTicket id patch prev)
  = if (id' =? id)%Z
    then option_map (fun t => merge t patch) (findTicket id prev)
    else findTicket id' prev.
Proof.
  intros H. unfold findTicket, updateTicket.
  induction prev as [|t rest IH]; [now destruct (id' =? id)%Z|].
  cbn [List.map find].
  destruct (Ticket.id t =? id)%Z eqn:Et.
  - rewrite (merge_keeps_id t patch H).
    apply Z.eqb_eq in Et.
    destruct (id' =? id)%Z eqn:E'.
    + apply Z.eqb_eq in E'. subst id'. rewrite Et, Z.eqb_refl. reflexivity.
    + rewrite Et. rewrite Z.eqb_sym, E'. exact IH.
  - destruct (id' =? id)%Z eqn:E'.
    + apply Z.eqb_eq in E'. subst id'. rewrite Et. exact IH.
    + destruct (Ticket.id t =? id')%Z; [reflexivity | exact IH].
Qed.

(** X11. Two successive patches of the same id, the first without an [id]
    key, amount to the single patch [{ ...p1, ...p2 }]. *)
Theorem updateTicket_compose (prev : list Ticket) (id : Z) (p1 p2 : Patch) :
  Patch.id p1 = None ->
  updateTicket id p2 (updateTicket id p1 prev)
  = updateTicket id (overlay p1 p2) prev.
Proof.
  intros H. unfold updateTicket. rewrite map_map. apply map_ext. intros t.
  destruct (Ticket.id t =? id)%Z eqn:Et.
  - rewrite (merge_keeps_id t p1 H), Et. apply merge_overlay.
  - now rewrite Et.
Qed.

(** X12. Patches of different ids, neither with an [id] key, commute. *)
Theorem updateTicket_commute (prev : list Ticket) (id1 id2 : Z)
    (p1 p2 : Patch) :
  id1 <> id2 -> Patch.id p1 = None -> Patch.id p2 = None ->
  updateTicket id1 p1 (updateTicket id2 p2 prev)
  = updateTicket id2 p2 (updateTicket id1 p1 prev).
Proof.
  intros Hne H1 H2. unfold updateTicket. rewrite !map_map.
  apply map_ext. intros t.
  destruct (Ticket.id t =? id1)%Z eqn:E1, (Ticket.id t =? id2)%Z eqn:E2.
  - apply Z.eqb_eq in E1, E2. congruence.
  - now rewrite (merge_keeps_id t p1 H1), ?E1, ?E2.
  - now rewrite (merge_keeps_id t p2 H2), ?E1, ?E2.
  - now rewrite ?E1, ?E2.
Qed.

(** X13. Applying the same patch twice is the same as applying it once,
    also when the patch renumbers the ticket. *)
Theorem updateTicket_idempotent (prev : list Ticket) (id : Z) (patch : Patch) :
  updateTicket id patch (updateTicket id patch prev)
  = updateTicket id patch prev.
Proof.
  unfold updateTicket. rewrite map_map. apply map_ext. intros t.
  destruct (Ticket.id t =? id)%Z eqn:Et.
  - destruct (Ticket.id (merge t patch) =? id)%Z; [apply merge_twice|reflexivity].
  - now rewrite Et.
Qed.

Lemma updateTicket_keeps_ids_witness :
  Patch.id (patch_stage routed) = None /\
  List.map Ticket.id (updateTicket 2 (patch_stage routed) initialTickets)
  = List.map Ticket.id initialTickets.
Proof.
  split; [reflexivity|].
  apply (updateTicket_keeps_ids initialTickets 2 (patch_stage routed)).
  reflexivity.
Defined.

Lemma findTicket_updateTicket_witness :
  Patch.id (patch_stage routed) = None /\
  findTicket 2 (updateTicket 2 (patch_stage routed) initialTickets)
  = option_map (fun t => merge t (patch_stage routed))
      (findTicket 2 initialTickets).
Proof.
  split; [reflexivity|].
  apply (findTicket_updateTicket initialTickets 2 2 (patch_stage routed)).
  reflexivity.
Defined.

Lemma updateTicket_compose_witness :
  Patch.id (patch_summary (lit "late")) = None /\
  updateTicket 2 (patch_stage sentiment)
    (updateTicket 2 (patch_summary (lit "late")) initialTickets)
  = updateTicket 2
      (overlay (patch_summary (lit "late")) (patch_stage sentiment))
      initialTickets.
Proof.
  split; [reflexivity|].
  apply (updateTicket_compose initialTickets 2); reflexivity.
Defined.

Lemma updateTicket_commute_witness :
  1%Z <> 2%Z /\
  updateTicket 1 (patch_stage summarized)
    (updateTicket 2 (patch_stage routed) initialTickets)
  = updateTicket 2 (patch_stage routed)
      (updateTicket 1 (patch_stage summarized) initialTickets).
Proof.
  split; [discriminate|].
  apply (updateTicket_commute initialTickets 1 2);
    [discriminate | reflexivity | reflexivity].
Defined.

(** ** Orchestrator: what a run does to the store *)

Lemma findTicket_absent (id : Z) (tickets : list Ticket) :
  (forall t, In t tickets -> Ticket.id t <> id) -> findTicket id tickets = None.
Proof.
  intros H. unfold findTicket. induction tickets as [|t rest IH]; [reflexivity|].
  cbn [find]. assert (Ticket.id t <> id) as Ht by (apply H; now left).
  apply Z.eqb_neq in Ht. rewrite Ht. apply IH.
  intros u Hu. apply H. now right.
Qed.

Lemma after_history (es : list Event) (t : Ticket) :
  after es t = last (history es t) t.
Proof.
  revert t; induction es as [|e es IH]; intros t; [reflexivity|].
  cbn [history]. rewrite last_cons_default, <- IH. reflexivity.
Qed.

Lemma keepsIds_not_inserted (es : list Event) :
  forallb keepsIds es = true -> forall t, ~ In (Inserted t) es.
Proof.
  intros H t Hin. rewrite forallb_forall in H. apply H in Hin. discriminate.
Qed.

Lemma applyEvents_after (es : list Event) (st : list Ticket) :
  forallb keepsIds es = true -> applyEvents es st = List.map (after es) st.
Proof.
  intros H. rewrite (applyEvents_pointwise es st (keepsIds_not_inserted es H)).
  apply map_ext. intros t. now rewrite after_history.
Qed.

(** Only the patches addressed to a ticket's id matter to that ticket. *)
Lemma after_addressed (es : list Event) (t : Ticket) :
  forallb keepsIds es = true ->
  after es t = after (filter (addresses (Ticket.id t)) es) t.
Proof.
  revert t; induction es as [|e es IH]; intros t H; [reflexivity|].
  cbn [forallb] in H. apply andb_prop in H as [He Hes].
  cbn [filter]. unfold after at 1. cbn [fold_left]. fold (after es (stepTicket e t)).
  destruct e as [i p| | | |]; cbn [stepTicket addresses keepsIds] in *;
    try discriminate He; try (apply IH; exact Hes).
  destruct (Patch.id p) eqn:Hp; [discriminate He|].
  rewrite (Z.eqb_sym i). destruct (Ticket.id t =? i)%Z eqn:Et.
  - unfold after at 2. cbn [fold_left stepTicket]. rewrite Et.
    fold (after (filter (addresses (Ticket.id t)) es) (merge t p)).
    rewrite (IH (merge t p) Hes), (merge_keeps_id t p Hp). reflexivity.
  - apply IH; exact Hes.
Qed.

Lemma filter_Interleaving {A} (P : A -> bool) (xs ys zs : list A) :
  Interleaving xs ys zs ->
  Interleaving (filter P xs) (filter P ys) (filter P zs).
Proof.
  induction 1 as [|x xs ys zs H IH|y xs ys zs H IH]; cbn [filter].
  - constructor.
  - destruct (P x); [now constructor | exact IH].
  - destruct (P y); [now constructor | exact IH].
Qed.

Lemma Interleaving_nil_r {A} (xs zs : list A) :
  Interleaving xs [] zs -> zs = xs.
Proof.
  intros H. remember [] as ys eqn:E.
  induction H as [|x xs ys zs H IH|y xs ys zs H IH];
    [reflexivity | now rewrite (IH E) | discriminate E].
Qed.

Lemma Interleaving_nil_l {A} (ys zs : list A) :
  Interleaving [] ys zs -> zs = ys.
Proof.
  intros H. remember [] as xs eqn:E.
  induction H as [|x xs ys zs H IH|y xs ys zs H IH];
    [reflexivity | discriminate E | now rewrite (IH E)].
Qed.

Lemma Interleaving_forallb {A} (P : A -> bool) (xs ys zs : list A) :
  Interleaving xs ys zs ->
  forallb P xs = true -> forallb P ys = true -> forallb P zs = true.
Proof.
  induction 1 as [|x xs ys zs H IH|y xs ys zs H IH]; cbn [forallb];
    intros Hx Hy; [reflexivity| |].
  - apply andb_prop in Hx as [H1 H2]. now rewrite H1, IH.
  - apply andb_prop in Hy as [H1 H2]. now rewrite H1, IH.
Qed.

Lemma Interleaving_app {A} (xs ys : list A) : Interleaving xs ys (xs ++ ys).
Proof.
  induction xs as [|x xs IH]; cbn [app].
  - induction ys as [|y ys IH]; now constructor.
  - now constructor.
Qed.

Lemma Shuffle_concat {A} (tasks : list (list A)) :
  Shuffle tasks (List.concat tasks).
Proof.
  induction tasks as [|task tasks IH]; cbn [List.concat]; [constructor|].
  apply (sh_more task tasks (List.concat tasks));
    [exact IH | apply Interleaving_app].
Qed.

Section RunFacts.

Variable toLowerCase : jsstring -> jsstring.

Lemma pipelineEvents_keepsIds (id : Z) (text : jsstring) :
  forallb keepsIds (pipelineEvents toLowerCase id text) = true.
Proof. reflexivity. Qed.

Lemma pipelineEvents_not_addressed (id i : Z) (text : jsstring) :
  i <> id -> filter (addresses i) (pipelineEvents toLowerCase id text) = [].
Proof.
  intros H. apply Z.eqb_neq in H. rewrite Z.eqb_sym in H.
  unfold pipelineEvents. cbn [filter addresses]. now rewrite H.
Qed.

Lemma pipelineEvents_after (id : Z) (text : jsstring) (t : Ticket) :
  after (pipelineEvents toLowerCase id text) t
  = if (Ticket.id t =? id)%Z then routedTicket toLowerCase text t else t.
Proof.
  destruct (Ticket.id t =? id)%Z eqn:Et.
  - apply Z.eqb_eq in Et. rewrite after_history.
    now apply pipelineEvents_history.
  - rewrite after_addressed by apply pipelineEvents_keepsIds.
    rewrite pipelineEvents_not_addressed; [reflexivity|].
    now apply Z.eqb_neq.
Qed.

Lemma routedTicket_id (text : jsstring) (t : Ticket) :
  Ticket.id (routedTicket toLowerCase text t) = Ticket.id t.
Proof. reflexivity. Qed.

Lemma routedTicket_twice (text text' : jsstring) (t : Ticket) :
  routedTicket toLowerCase text (routedTicket toLowerCase text' t)
  = routedTicket toLowerCase text t.
Proof. reflexivity. Qed.

(** The store after a run that resolved its ticket, in closed form. *)
Lemma runPipeline_closed_form tickets id ticketOverride ticket st :
  resolve tickets id ticketOverride = Some ticket ->
  store (run (runPipeline toLowerCase tickets id ticketOverride) st)
  = List.map (fun t => if (Ticket.id t =? id)%Z
                       then routedTicket toLowerCase (Ticket.text ticket) t
                       else t) st.
Proof.
  intros H. rewrite (runPipeline_store toLowerCase _ _ _ _ st H).
  rewrite applyEvents_after by apply pipelineEvents_keepsIds.
  apply map_ext. intros t. apply pipelineEvents_after.
Qed.

(** X14. A run without override for an id that no ticket of the captured
    list has does nothing at all: no patch, no stage call, store
    unchanged. *)
Theorem runPipeline_unknown_id tickets id st :
  (forall t, In t tickets -> Ticket.id t <> id) ->
  run (runPipeline toLowerCase tickets id None) st = mkWorld st [].
Proof.
  intros H. apply runPipeline_unresolved.
  cbn [resolve]. now apply findTicket_absent.
Qed.

(** X15. When the store holds no ticket of the id, a run leaves the store
    as it is, also when it resolved a ticket from its override or from a
    stale captured list. *)
Theorem runPipeline_absent_from_store tickets id ticketOverride st :
  (forall t, In t st -> Ticket.id t <> id) ->
  store (run (runPipeline toLowerCase tickets id ticketOverride) st) = st.
Proof.
  intros H.
  destruct (resolve tickets id ticketOverride) as [ticket|] eqn:R.
  - rewrite (runPipeline_closed_form _ _ _ _ st R).
    rewrite <- (map_id st) at 2. apply map_ext_in. intros t Hin.
    apply H in Hin. apply Z.eqb_neq in Hin. now rewrite Hin.
  - now rewrite (runPipeline_unresolved toLowerCase _ _ _ st R).
Qed.

(** X16. A run never adds, drops or reorders tickets, never changes an id
    or a text, and leaves every ticket of another id exactly as it was. *)
Theorem runPipeline_frame tickets id ticketOverride st :
  let st' := store (run (runPipeline toLowerCase tickets id ticketOverride) st) in
  List.map Ticket.id st' = List.map Ticket.id st /\
  List.map Ticket.text st' = List.map Ticket.text st /\
  (forall i t, nth_error st i = Some t -> Ticket.id t <> id ->
               nth_error st' i = Some t).
Proof.
  cbv zeta.
  destruct (resolve tickets id ticketOverride) as [ticket|] eqn:R.
  - rewrite (runPipeline_closed_form _ _ _ _ st R). repeat split.
    + rewrite map_map. apply map_ext. intros t.
      now destruct (Ticket.id t =? id)%Z.
    + rewrite map_map. apply map_ext. intros t.
      now destruct (Ticket.id t =? id)%Z.
    + intros i t Hi Hne. rewrite nth_error_map, Hi. cbn [option_map].
      apply Z.eqb_neq in Hne. now rewrite Hne.
  - rewrite (runPipeline_unresolved toLowerCase _ _ _ st R). cbn [store].
    repeat split. intros i t Hi _. exact Hi.
Qed.

(** X17. Running the same pipeline call a second time, on the store the
    first run left, changes nothing: the derived fields are recomputed from
    the same text and overwrite themselves. *)
Theorem runPipeline_twice tickets id ticketOverride st :
  let again := runPipeline toLowerCase tickets id ticketOverride in
  store (run again (store (run again st))) = store (run again st).
Proof.
  cbv zeta.
  destruct (resolve tickets id ticketOverride) as [ticket|] eqn:R.
  - rewrite !(runPipeline_closed_form _ _ _ _ _ R), map_map.
    apply map_ext. intros t.
    destruct (Ticket.id t =? id)%Z eqn:Et; [|now rewrite ?Et].
    rewrite routedTicket_id, ?Et. apply routedTicket_twice.
  - now rewrite !(runPipeline_unresolved toLowerCase _ _ _ _ R).
Qed.

(** X18. Two runs for different ids do not disturb each other: however
    their effects interleave, the store ends as if the two runs had been
    made one after the other, in either order. *)
Theorem runPipeline_confluent tickets1 id1 override1 ticket1
    tickets2 id2 override2 ticket2 st (schedule : list Event) :
  resolve tickets1 id1 override1 = Some ticket1 ->
  resolve tickets2 id2 override2 = Some ticket2 ->
  id1 <> id2 ->
  Interleaving
    (trace (run (runPipeline toLowerCase tickets1 id1 override1) st))
    (trace (run (runPipeline toLowerCase tickets2 id2 override2) st))
    schedule ->
  let run1 := runPipeline toLowerCase tickets1 id1 override1 in
  let run2 := runPipeline toLowerCase tickets2 id2 override2 in
  applyEvents schedule st = store (run run2 (store (run run1 st))) /\
  applyEvents schedule st = store (run run1 (store (run run2 st))).
Proof.
  intros R1 R2 Hne Hil run1 run2. subst run1 run2.
  rewrite (runPipeline_trace toLowerCase _ _ _ _ st R1) in Hil.
  rewrite (runPipeline_trace toLowerCase _ _ _ _ st R2) in Hil.
  assert (forallb keepsIds schedule = true) as K
    by (apply (Interleaving_forallb _ _ _ _ Hil); apply pipelineEvents_keepsIds).
  assert (forall t,
    after schedule t
    = if (Ticket.id t =? id1)%Z
      then routedTicket toLowerCase (Ticket.text ticket1) t
      else if (Ticket.id t =? id2)%Z
           then routedTicket toLowerCase (Ticket.text ticket2) t
           else t) as A.
  { intros t. rewrite (after_addressed _ _ K).
    pose proof (filter_Interleaving (addresses (Ticket.id t)) _ _ _ Hil) as F.
    destruct (Ticket.id t =? id1)%Z eqn:E1.
    - apply Z.eqb_eq in E1.
      rewrite (pipelineEvents_not_addressed id2 (Ticket.id t)) in F by congruence.
      apply Interleaving_nil_r in F. rewrite F.
      rewrite <- after_addressed by apply pipelineEvents_keepsIds.
      rewrite pipelineEvents_after. apply Z.eqb_eq in E1. now rewrite E1.
    - apply Z.eqb_neq in E1.
      rewrite (pipelineEvents_not_addressed id1 (Ticket.id t)) in F by exact E1.
      apply Interleaving_nil_l in F. rewrite F.
      rewrite <- after_addressed by apply pipelineEvents_keepsIds.
      apply pipelineEvents_after. }
  rewrite (applyEvents_after _ _ K).
  rewrite !(runPipeline_closed_form _ _ _ _ _ R1).
  rewrite !(runPipeline_closed_form _ _ _ _ _ R2).
  rewrite !map_map.
  split; apply map_ext; intros t; rewrite A.
  - destruct (Ticket.id t =? id1)%Z eqn:E1.
    + rewrite routedTicket_id.
      assert ((Ticket.id t =? id2)%Z = false) as N
        by (apply Z.eqb_eq in E1; apply Z.eqb_neq; congruence).
      now rewrite N.
    + reflexivity.
  - destruct (Ticket.id t =? id2)%Z eqn:E2.
    + rewrite routedTicket_id.
      assert ((Ticket.id t =? id1)%Z = false) as N
        by (apply Z.eqb_eq in E2; apply Z.eqb_neq; congruence).
      now rewrite N.
    + destruct (Ticket.id t =? id1)%Z; reflexivity.
Qed.

End RunFacts.

(** ** Bulk Runner: the runs it starts *)

Lemma findTicket_unique (st : list Ticket) (t : Ticket) :
  NoDup (List.map Ticket.id st) -> In t st ->
  findTicket (Ticket.id t) st = Some t.
Proof.
  unfold findTicket. induction st as [|u rest IH]; intros Hnd Hin; [destruct Hin|].
  cbn [List.map] in Hnd. inversion Hnd as [|x l Hnotin Hnd']; subst.
  cbn [find]. destruct Hin as [-> | Hin].
  - now rewrite Z.eqb_refl.
  - destruct (Ticket.id u =? Ticket.id t)%Z eqn:E; [|now apply IH].
    exfalso. apply Hnotin. apply Z.eqb_eq in E. rewrite E.
    now apply in_map.
Qed.

Lemma find_all_false {A} (f : A -> bool) (l : list A) :
  (forall v, In v l -> f v = false) -> find f l = None.
Proof.
  induction l as [|a l IH]; intros H; [reflexivity|].
  cbn [find]. rewrite (H a (or_introl eq_refl)). apply IH.
  intros v Hv. apply H. now right.
Qed.

Lemma find_filter_unique (P : Ticket -> bool) (st : list Ticket) (t : Ticket) :
  NoDup (List.map Ticket.id st) -> In t st ->
  find (fun u => (Ticket.id u =? Ticket.id t)%Z) (filter P st)
  = if P t then Some t else None.
Proof.
  induction st as [|u rest IH]; intros Hnd Hin; [destruct Hin|].
  cbn [List.map] in Hnd. inversion Hnd as [|x l Hnotin Hnd']; subst.
  assert (forall v, In v rest -> (Ticket.id v =? Ticket.id u)%Z = false) as Hrest.
  { intros v Hv. apply Z.eqb_neq. intros E. apply Hnotin. rewrite <- E.
    now apply in_map. }
  cbn [filter]. destruct Hin as [-> | Hin].
  - destruct (P t) eqn:Pt.
    + cbn [find]. now rewrite Z.eqb_refl.
    + apply find_all_false. intros v Hv.
      apply filter_In in Hv as [Hv _]. now apply Hrest.
  - specialize (Hrest t Hin). rewrite Z.eqb_sym in Hrest.
    destruct (P u).
    + cbn [find]. rewrite Hrest. now apply IH.
    + now apply IH.
Qed.

Lemma NoDup_map_filter {A B} (f : A -> B) (P : A -> bool) (l : list A) :
  NoDup (List.map f l) -> NoDup (List.map f (filter P l)).
Proof.
  induction l as [|a l IH]; intros H; [constructor|].
  cbn [List.map] in H. inversion H as [|x l' Hnotin Hnd]; subst.
  cbn [filter]. destruct (P a); [|now apply IH].
  cbn [List.map]. constructor; [|now apply IH].
  intros Hin. apply Hnotin. apply in_map_iff in Hin as [b [E Hb]].
  apply filter_In in Hb as [Hb _]. rewrite <- E. now apply in_map.
Qed.

Section BulkFacts.

Variable toLowerCase : jsstring -> jsstring.

(** The patches a shuffle of runs addresses to one id are those of the run
    for that id, if there is one. *)
Lemma shuffled_runs_addressed (jobs : list Ticket) (schedule : list Event) :
  NoDup (List.map Ticket.id jobs) ->
  Shuffle (List.map (fun u => pipelineEvents toLowerCase (Ticket.id u)
                                             (Ticket.text u)) jobs)
          schedule ->
  forallb keepsIds schedule = true /\
  forall i,
    filter (addresses i) schedule
    = match find (fun u => (Ticket.id u =? i)%Z) jobs with
      | Some u => filter (addresses i)
                    (pipelineEvents toLowerCase (Ticket.id u) (Ticket.text u))
      | None => []
      end.
Proof.
  revert schedule; induction jobs as [|u jobs IH]; intros schedule Hnd Hsh.
  - inversion Hsh; subst. now split.
  - cbn [List.map] in Hnd, Hsh.
    inversion Hnd as [|x l Hnotin Hnd']; subst.
    inversion Hsh as [|task tasks rest sch Hrest Hil]; subst.
    destruct (IH rest Hnd' Hrest) as [K F]. split.
    + apply (Interleaving_forallb _ _ _ _ Hil); [reflexivity | exact K].
    + intros i. cbn [find].
      pose proof (filter_Interleaving (addresses i) _ _ _ Hil) as Fi.
      destruct (Ticket.id u =? i)%Z eqn:E.
      * apply Z.eqb_eq in E. rewrite F in Fi.
        assert (find (fun v => (Ticket.id v =? i)%Z) jobs = None) as N.
        { apply findTicket_absent. intros v Hv Ev. apply Hnotin.
          rewrite E, <- Ev. now apply in_map. }
        rewrite N in Fi. now apply Interleaving_nil_r in Fi.
      * apply Z.eqb_neq in E.
        rewrite (pipelineEvents_not_addressed toLowerCase (Ticket.id u) i) in Fi
          by congruence.
        apply Interleaving_nil_l in Fi. now rewrite Fi, F.
Qed.

(** X19. With unique ids in the store, however the runs that [runAll]
    starts interleave, once they are all over every ticket that lacked a
    summary or an action is routed from its own text and every other ticket
    is untouched. *)
Theorem runAll_shuffled (st : list Ticket) (schedule : list Event) :
  NoDup (List.map Ticket.id st) ->
  Shuffle
    (List.map (fun id => trace (run (runPipeline toLowerCase st id None) st))
              (runAll st))
    schedule ->
  applyEvents schedule st
  = List.map (fun t => if needsRun t
                       then routedTicket toLowerCase (Ticket.text t) t
                       else t) st.
Proof.
  intros Hnd Hsh.
  assert (List.map (fun id => trace (run (runPipeline toLowerCase st id None) st))
                   (runAll st)
          = List.map (fun u => pipelineEvents toLowerCase (Ticket.id u)
                                              (Ticket.text u))
                     (filter needsRun st)) as E.
  { unfold runAll. rewrite map_map. apply map_ext_in. intros u Hu.
    apply filter_In in Hu as [Hu _].
    apply runPipeline_trace. cbn [resolve]. now apply findTicket_unique. }
  rewrite E in Hsh.
  destruct (shuffled_runs_addressed _ _ (NoDup_map_filter _ needsRun _ Hnd) Hsh)
    as [K F].
  rewrite (applyEvents_after _ _ K). apply map_ext_in. intros t Hin.
  rewrite (after_addressed _ _ K), F, (find_filter_unique needsRun st t Hnd Hin).
  destruct (needsRun t); [|reflexivity].
  rewrite <- after_addressed by apply pipelineEvents_keepsIds.
  rewrite pipelineEvents_after. now rewrite Z.eqb_refl.
Qed.

(** X20. With unique ids in the store, once a run for every ticket is
    over, however those runs interleaved, [runAll] starts a run for exactly
    the tickets whose text is empty or white space only, in store order;
    when no text is blank it starts none. *)
Theorem runAll_after_runs (st : list Ticket) (schedule : list Event) :
  NoDup (List.map Ticket.id st) ->
  Shuffle
    (List.map (fun t => trace (run (runPipeline toLowerCase st (Ticket.id t)
                                      None) st)) st)
    schedule ->
  runAll (applyEvents schedule st)
  = List.map Ticket.id
      (filter (fun t => forallb isWhiteSpace (Ticket.text t)) st) /\
  ((forall t, In t st -> forallb isWhiteSpace (Ticket.text t) = false) ->
   runAll (applyEvents schedule st) = []).
Proof.
  intros Hnd Hsh.
  assert (List.map (fun t => trace (run (runPipeline toLowerCase st
                                           (Ticket.id t) None) st)) st
          = List.map (fun u => pipelineEvents toLowerCase (Ticket.id u)
                                              (Ticket.text u)) st) as E.
  { apply map_ext_in. intros u Hu.
    apply runPipeline_trace. cbn [resolve]. now apply findTicket_unique. }
  rewrite E in Hsh.
  destruct (shuffled_runs_addressed _ _ Hnd Hsh) as [K F].
  assert (applyEvents schedule st
          = List.map (fun t => routedTicket toLowerCase (Ticket.text t) t) st)
    as D.
  { rewrite (applyEvents_after _ _ K). apply map_ext_in. intros t Hin.
    rewrite (after_addressed _ _ K), F.
    pose proof (findTicket_unique st t Hnd Hin) as U. unfold findTicket in U.
    rewrite U.
    rewrite <- after_addressed by apply pipelineEvents_keepsIds.
    rewrite pipelineEvents_after. now rewrite Z.eqb_refl. }
  rewrite D. pose proof (runAll_after_completion toLowerCase st) as R.
  unfold blank in R. split; [exact R|].
  intros H. rewrite R.
  assert (filter (fun t => forallb isWhiteSpace (Ticket.text t)) st = []) as N.
  { clear - H. induction st as [|t rest IH]; [reflexivity|].
    cbn [filter]. rewrite (H t (or_introl eq_refl)).
    apply IH. intros u Hu. apply H. now right. }
  now rewrite N.
Qed.

End BulkFacts.

(** X21. Every id that [runAll] hands to the Orchestrator resolves in the
    list [runAll] read: no run it starts is dropped for lack of a ticket. *)
Theorem runAll_ids_resolve (tickets : list Ticket) (id : Z) :
  In id (runAll tickets) ->
  exists t, findTicket id tickets = Some t /\ Ticket.id t = id.
Proof.
  unfold runAll. intros H. apply in_map_iff in H as [u [E Hu]].
  apply filter_In in Hu as [Hu _]. subst id.
  unfold findTicket.
  destruct (find (fun t => (Ticket.id t =? Ticket.id u)%Z) tickets) as [t|] eqn:F.
  - exists t. split; [reflexivity|]. apply find_some in F as [_ F].
    now apply Z.eqb_eq.
  - exfalso. apply (find_none _ _ F) in Hu. now rewrite Z.eqb_refl in Hu.
Qed.

(** ** Ingestion Entry Point: adds seen by the next render *)

Lemma StronglySorted_snoc {A} (R : A -> A -> Prop) (l : list A) (x : A) :
  StronglySorted R l -> Forall (fun a => R a x) l ->
  StronglySorted R (l ++ [x]).
Proof.
  induction 1 as [|a l Hs IH Ha]; intros Hx; cbn [app].
  - repeat constructor.
  - inversion Hx; subst. constructor; [now apply IH|].
    apply Forall_app. split; [exact Ha | now constructor].
Qed.

(** X22. Take a sequence of adds, each made by a render that has seen the
    store the previous add left, on a store small enough for the spread
    (store size plus number of adds within the argument limit) and with ids
    that stay within [-2^53 .. 2^53] when the number of adds is added.  Then
    the new tickets are put in front of the old store, the latest first, each
    with its text, stage uploaded and no derived field; every new id is
    above all ids of the old store, the new ids increase in the order of the
    calls, and unique ids stay unique. *)
Theorem addEachRendered_front (argumentLimit : nat) (texts : list jsstring)
    (st : list Ticket) :
  List.length st + List.length texts <= argumentLimit ->
  (Z.of_nat (List.length texts) < two53)%Z ->
  (forall t, In t st ->
     (- two53 <= Ticket.id t)%Z /\
     (Ticket.id t + Z.of_nat (List.length texts) <= two53)%Z) ->
  exists news,
    addEachRendered argumentLimit texts st = news ++ st /\
    List.map Ticket.text news = rev texts /\
    (forall t, In t news ->
       Ticket.stage t = uploaded /\ Ticket.summary t = None /\
       Ticket.sentiment t = None /\ Ticket.urgency t = None /\
       Ticket.action t = None /\
       forall u, In u st -> (Ticket.id u < Ticket.id t)%Z) /\
    StronglySorted (fun a b => (Ticket.id b < Ticket.id a)%Z) news /\
    (NoDup (List.map Ticket.id st) ->
     NoDup (List.map Ticket.id (addEachRendered argumentLimit texts st))).
Proof.
  intros H1 H2 H3.
  assert (roomFor argumentLimit (List.length texts) st) as Hroom
    by (repeat split; try assumption; now apply H3).
  clear H1 H2 H3.
  revert st Hroom; induction texts as [|text rest IH]; intros st Hroom.
  - exists []. split; [reflexivity|]. split; [reflexivity|].
    split; [intros t []|]. split; [constructor | intros H; exact H].
  - pose proof Hroom as Hroom0. cbn [List.length] in Hroom.
    destruct (addTicket_rendered argumentLimit _ st text Hroom)
      as (id & E & Habove & Hroom').
    cbn [addEachRendered]. rewrite E.
    set (new := Ticket.mk id text uploaded None None None None) in *.
    destruct (IH (new :: st) Hroom') as (news & E1 & E2 & E3 & E4 & _).
    exists (news ++ [new]). split; [now rewrite E1, <- app_assoc|].
    split; [rewrite map_app, E2; reflexivity|]. split; [|split].
    + intros t Hin. apply in_app_or in Hin as [Hin | [<- | []]].
      * destruct (E3 t Hin) as (S1 & S2 & S3 & S4 & S5 & S6).
        repeat split; try assumption.
        intros u Hu. apply S6. now right.
      * repeat split. exact Habove.
    + apply StronglySorted_snoc; [exact E4|].
      apply Forall_forall. intros t Hin.
      destruct (E3 t Hin) as (_ & _ & _ & _ & _ & S6).
      apply S6. now left.
    + intros Hnd. rewrite <- E.
      apply (addEachRendered_unique argumentLimit (text :: rest) st Hroom0 Hnd).
Qed.

Section IngestionFacts.

Variable toLowerCase : jsstring -> jsstring.

Lemma runPipeline_store_from tickets id ticketOverride (w : World) :
  store (snd (runPipeline toLowerCase tickets id ticketOverride w))
  = store (run (runPipeline toLowerCase tickets id ticketOverride) (store w)).
Proof.
  unfold run, runPipeline.
  destruct (resolve tickets id ticketOverride); reflexivity.
Qed.

(** X23. An add made by a render that has seen the store, on a store
    within the argument limit and with ids in the range where [+ 1] is
    exact, followed by its deferred run, leaves the new ticket in front,
    with an id above all others and routed from its own text, and every
    ticket that was in the store exactly as it was. *)
Theorem addTicketThenRun_store (argumentLimit : nat) (st : list Ticket)
    (text : jsstring) :
  List.length st <= argumentLimit ->
  (forall t, In t st -> (- two53 <= Ticket.id t < two53)%Z) ->
  exists id,
    nextId argumentLimit st = Some id /\
    (forall t, In t st -> (Ticket.id t < id)%Z) /\
    store (run (addTicketThenRun toLowerCase argumentLimit st text) st)
    = routedTicket toLowerCase text
        (Ticket.mk id text uploaded None None None None) :: st.
Proof.
  intros Hlen Hsafe.
  destruct (nextId_defined argumentLimit st Hlen) as [id Hid].
  pose proof (nextId_above argumentLimit st id Hid Hsafe) as Habove.
  exists id. split; [exact Hid|]. split; [exact Habove|].
  set (new := Ticket.mk id text uploaded None None None None).
  assert (store (run (addTicketThenRun toLowerCase argumentLimit st text) st)
          = store (snd (runPipeline toLowerCase st id (Some new)
                          (mkWorld (new :: st) [Inserted new])))) as E.
  { unfold addTicketThenRun, addTicket, run, bind. rewrite Hid. reflexivity. }
  rewrite E, runPipeline_store_from. cbn [store].
  rewrite (runPipeline_closed_form toLowerCase st id (Some new)
             new (new :: st) eq_refl).
  cbn [List.map]. change (Ticket.id new) with id.
  rewrite Z.eqb_refl. f_equal.
  rewrite <- (map_id st) at 2. apply map_ext_in. intros t Hin.
  pose proof (Habove t Hin) as L.
  assert ((Ticket.id t =? id)%Z = false) as N by (apply Z.eqb_neq; lia).
  now rewrite N.
Qed.

End IngestionFacts.

(** X24. When the greatest id of the captured list is [2^53], the id
    computed for a new ticket is [2^53] again: [+ 1] rounds back, and the new
    ticket shares its id with an existing one. *)
Theorem nextId_saturates (argumentLimit : nat) (tickets : list Ticket)
    (t : Ticket) :
  List.length tickets <= argumentLimit ->
  In t tickets -> Ticket.id t = two53 ->
  (forall u, In u tickets -> (Ticket.id u <= two53)%Z) ->
  nextId argumentLimit tickets = Some two53.
Proof.
  intros Hlen Hin Ht Hmax. unfold nextId.
  destruct tickets as [|t0 rest]; [destruct Hin|].
  cbn [List.map]. apply Nat.ltb_ge in Hlen. rewrite Hlen. f_equal.
  set (m := fold_left Z.max (List.map Ticket.id rest) (Ticket.id t0)).
  assert (m = two53) as ->; [|reflexivity].
  destruct (fold_left_max_bounds (List.map Ticket.id rest) (Ticket.id t0))
    as [B1 B2]. fold m in B1, B2.
  assert (two53 <= m)%Z as L.
  { destruct Hin as [<- | Hin]; [now rewrite <- Ht|].
    rewrite <- Ht. apply B2. now apply in_map. }
  assert (m <= two53)%Z as U.
  { destruct (fold_left_max_In (List.map Ticket.id rest) (Ticket.id t0))
      as [E | Hm]; fold m in E || fold m in Hm.
    - rewrite E. apply Hmax. now left.
    - apply in_map_iff in Hm as [u [<- Hu]]. apply Hmax. now right. }
  lia.
Qed.

(** X25. When the captured list has more tickets than a call can take
    arguments, [addTicket] throws before it reaches [setTickets]: no ticket
    is inserted, no effect is issued and no run is deferred. *)
Theorem addTicket_too_many_arguments (argumentLimit : nat)
    (tickets st : list Ticket) (text : jsstring) :
  argumentLimit < List.length tickets ->
  addTicket argumentLimit tickets text (mkWorld st [])
  = (None, mkWorld st []).
Proof.
  intros H. unfold addTicket, nextId.
  destruct tickets as [|t0 rest]; [cbn in H; lia|].
  cbn [List.map]. apply Nat.ltb_lt in H. now rewrite H.
Qed.

Lemma addEachRendered_front_witness :
  List.length initialTickets + 2 <= 100 /\
  (forall t, In t initialTickets ->
     (- two53 <= Ticket.id t)%Z /\ (Ticket.id t + 2 <= two53)%Z) /\
  exists news,
    addEachRendered 100 [lit "first"; lit "second"] initialTickets
    = news ++ initialTickets /\
    List.map Ticket.text news = [lit "second"; lit "first"].
Proof.
  assert (List.length initialTickets + 2 <= 100) as H1 by (cbn; lia).
  assert (Z.of_nat 2 < two53)%Z as H2 by reflexivity.
  assert (forall t, In t initialTickets ->
            (- two53 <= Ticket.id t)%Z /\ (Ticket.id t + 2 <= two53)%Z) as H3
    by (intros t [<- | [<- | [<- | []]]]; cbn; split; discriminate).
  split; [exact H1|]. split; [exact H3|].
  destruct (addEachRendered_front 100 [lit "first"; lit "second"]
              initialTickets H1 H2 H3) as (news & E & E2 & _).
  exists news. split; [exact E | exact E2].
Defined.

Lemma addTicketThenRun_store_witness :
  List.length initialTickets <= 100 /\
  (forall t, In t initialTickets -> (- two53 <= Ticket.id t < two53)%Z) /\
  exists id,
    nextId 100 initialTickets = Some id /\
    store (run (addTicketThenRun toLowerCaseAscii 100 initialTickets
                  (lit "cannot log in")) initialTickets)
    = routedTicket toLowerCaseAscii (lit "cannot log in")
        (Ticket.mk id (lit "cannot log in") uploaded None None None None)
      :: initialTickets.
Proof.
  assert (List.length initialTickets <= 100) as H1 by (cbn; lia).
  assert (forall t, In t initialTickets ->
            (- two53 <= Ticket.id t < two53)%Z) as H2
    by (intros t [<- | [<- | [<- | []]]]; cbn; split;
        first [discriminate | reflexivity]).
  split; [exact H1|]. split; [exact H2|].
  destruct (addTicketThenRun_store toLowerCaseAscii 100 initialTickets
              (lit "cannot log in") H1 H2) as (id & Hid & _ & E).
  exists id. split; [exact Hid | exact E].
Defined.

Lemma nextId_saturates_witness :
  let old := Ticket.mk two53 (lit "old") routed None None None None in
  List.length [old] <= 100 /\ nextId 100 [old] = Some two53.
Proof.
  intros old. split; [cbn; lia|].
  apply (nextId_saturates 100 [old] old).
  - cbn; lia.
  - now left.
  - reflexivity.
  - intros u [<- | []]. cbn. lia.
Defined.

Lemma addTicket_too_many_arguments_witness :
  2 < List.length initialTickets /\
  addTicket 2 initialTickets (lit "late") (mkWorld initialTickets [])
  = (None, mkWorld initialTickets []).
Proof.
  split; [cbn; lia|].
  apply (addTicket_too_many_arguments 2 initialTickets initialTickets).
  cbn; lia.
Defined.

(** ** Instances *)

Lemma runPipeline_unknown_id_witness :
  (forall t, In t initialTickets -> Ticket.id t <> 7%Z) /\
  run (runPipeline toLowerCaseAscii initialTickets 7 None) initialTickets
  = mkWorld initialTickets [].
Proof.
  assert (forall t, In t initialTickets -> Ticket.id t <> 7%Z) as H
    by (intros t [<- | [<- | [<- | []]]]; discriminate).
  split; [exact H|].
  apply (runPipeline_unknown_id toLowerCaseAscii initialTickets 7 initialTickets H).
Defined.

Lemma runPipeline_absent_from_store_witness :
  let ghost := Ticket.mk 9 (lit "cannot log in") uploaded None None None None in
  (forall t, In t initialTickets -> Ticket.id t <> 9%Z) /\
  store (run (runPipeline toLowerCaseAscii [] 9 (Some ghost)) initialTickets)
  = initialTickets.
Proof.
  cbv zeta.
  assert (forall t, In t initialTickets -> Ticket.id t <> 9%Z) as H
    by (intros t [<- | [<- | [<- | []]]]; discriminate).
  split; [exact H|].
  apply (runPipeline_absent_from_store toLowerCaseAscii [] 9 _ initialTickets H).
Defined.

Lemma runPipeline_confluent_witness :
  let run1 := runPipeline toLowerCaseAscii initialTickets 1 None in
  let run3 := runPipeline toLowerCaseAscii initialTickets 3 None in
  let t1 := trace (run run1 initialTickets) in
  let t3 := trace (run run3 initialTickets) in
  let schedule := firstn 4 t1 ++ firstn 5 t3 ++ skipn 4 t1 ++ skipn 5 t3 in
  Interleaving t1 t3 schedule /\
  applyEvents schedule initialTickets
  = store (run run3 (store (run run1 initialTickets))).
Proof.
  intros run1 run3 t1 t3 schedule.
  assert (Interleaving t1 t3 schedule) as Hil.
  { subst run1 run3 t1 t3 schedule. vm_compute. repeat constructor. }
  split; [exact Hil|].
  assert (1%Z <> 3%Z) as Hne by discriminate.
  exact (proj1 (runPipeline_confluent toLowerCaseAscii
                  initialTickets 1 None _ initialTickets 3 None _
                  initialTickets schedule eq_refl eq_refl Hne Hil)).
Defined.

Lemma runAll_shuffled_witness :
  let traces :=
    List.map (fun id => trace (run (runPipeline toLowerCaseAscii initialTickets
                                      id None) initialTickets))
             (runAll initialTickets) in
  NoDup (List.map Ticket.id initialTickets) /\
  List.map Ticket.stage (applyEvents (List.concat traces) initialTickets)
  = [routed; routed; routed].
Proof.
  intros traces.
  assert (NoDup (List.map Ticket.id initialTickets)) as Hnd.
  { cbn. repeat constructor; cbn; intuition discriminate. }
  split; [exact Hnd|].
  rewrite (runAll_shuffled toLowerCaseAscii initialTickets (List.concat traces)
             Hnd (Shuffle_concat traces)).
  reflexivity.
Defined.

Lemma runAll_ids_resolve_witness :
  In 2%Z (runAll initialTickets) /\
  exists t, findTicket 2 initialTickets = Some t /\ Ticket.id t = 2%Z.
Proof.
  assert (In 2%Z (runAll initialTickets)) as H by (right; left; reflexivity).
  split; [exact H|].
  apply (runAll_ids_resolve initialTickets 2 H).
Defined.

Lemma runAll_after_runs_witness :
  let traces :=
    List.map (fun t => trace (run (runPipeline toLowerCaseAscii initialTickets
                                     (Ticket.id t) None) initialTickets))
             initialTickets in
  NoDup (List.map Ticket.id initialTickets) /\
  runAll (applyEvents (List.concat traces) initialTickets) = [].
Proof.
  intros traces.
  assert (NoDup (List.map Ticket.id initialTickets)) as Hnd.
  { cbn. repeat constructor; cbn; intuition discriminate. }
  split; [exact Hnd|].
  destruct (runAll_after_runs toLowerCaseAscii initialTickets
              (List.concat traces) Hnd (Shuffle_concat traces)) as [E _].
  rewrite E. reflexivity.
Defined.
